(** * GeminiResponseHandler / GeminiAgent: a shallow embedding

    The two TypeScript classes of [GeminiResponseHandler.ts] are embedded as
    event-driven state machines.  An [async] function is a coroutine: its body
    runs synchronously up to the next [await] on an external promise (a
    transport call, the provider's stream), where it is suspended; the
    environment later settles that promise and the body resumes.  A machine
    state therefore records the object's fields together with the suspension
    point of every coroutine in flight, an input is one stimulus of the
    JavaScript event loop (a call, a settled promise, a delivered event) and a
    step returns the new state and the calls issued on the collaborators, in
    program order.  Every interleaving the single-threaded event loop allows
    is a list of inputs.

    An [await] on a promise of the class itself ([await this.dispose()],
    [await this.handleError(e)]) is not a suspension point of the model: the
    callee has already run to its own first external [await] when the promise
    is created, and the code that follows such an [await] only calls
    [dispose] again, which is guarded by [is_done]; no stimulus delivered in
    between can change what it does. *)

From stdpp Require Import base list strings numbers.

Open Scope Z_scope.

(** ** Values shared by both classes *)

(** [MessageResponse]: the fields of the target message that the code reads. *)
Record MessageResponse := mkMessageResponse {
  cid : string;
  id : string;
}.

(** A thrown object (or primitive).  [instanceof_Error] is the outcome of
    [error instanceof Error]; [err_message] is [None] when [error.message] is
    nullish; [err_toString] is what [error.toString()] returns, [None] when
    [toString] is not callable (an object without prototype). *)
Record error := mkError {
  instanceof_Error : bool;
  err_name : string;
  err_message : option string;
  err_toString : option string;
}.

(** What a [catch] clause can receive: a rejection or a [throw] may carry
    [null] or [undefined] as well as a value. *)
Inductive thrown :=
  | thrown_null
  | thrown_undefined
  | thrown_value (e : error).

Coercion thrown_value : error >-> thrown.

(** The [TypeError] the language raises, with the message of V8. *)
Definition TypeError (msg : string) : error :=
  mkError true "TypeError" (Some msg) (Some ("TypeError: " +:+ msg)).

Inductive ai_state := AI_STATE_GENERATING | AI_STATE_THINKING | AI_STATE_ERROR.

(** The argument of [channel.sendEvent]. *)
Inductive channel_event :=
  | ai_indicator_update (st : ai_state) (ev_cid ev_mid : string)
  | ai_indicator_clear (ev_cid ev_mid : string).

(** The message of an inbound event, and the event itself ([Event] of
    stream-chat), with the fields the code reads. *)
Record Message := mkMessage {
  text : option string;
  ai_generated : bool;
  custom_writingTask : option string;
}.

Record Event := mkEvent {
  ev_message : option Message;
  ev_message_id : option string;
}.

(** JavaScript truthiness of a string. *)
Definition truthy (s : string) : bool := negb (String.eqb s "").

(** [s] is extended by [t]: [t] starts with [s]. *)
Definition extends (s t : string) : Prop := exists u, t = s +:+ u.

(** ** GeminiResponseHandler *)
Module Handler.

(** Calls issued by a handler on its collaborators. *)
Inductive effect :=
  | on_stop                                   (* chatClient.on("ai_indicator.stop", ...) *)
  | off_stop                                  (* chatClient.off("ai_indicator.stop", ...) *)
  | sendEvent (e : channel_event)             (* channel.sendEvent *)
  | generateContentStream (prompt : string)   (* model.generateContentStream *)
  | partialUpdateMessage (mid : string) (set_text : string) (set_message : option string)
  | abort                                     (* abortController.abort() *)
  | onDispose                                 (* the constructor's callback *)
  | console_log (msg : list string)
  | console_error (msg : string) (e : thrown).

(** The private fields.  [abortController] is [None] while the field is
    undefined and [Some b] for a controller whose signal has [aborted = b].
    [listening] is the entry of [handleStopGenerating] in the client's
    listener table. *)
Record handler := mkHandler {
  message_text : string;
  last_update_time : Z;
  is_done : bool;
  abortController : option bool;
  message : MessageResponse;
  listening : bool;
}.

Definition set_message_text (p : string) (h : handler) : handler :=
  mkHandler p (last_update_time h) (is_done h) (abortController h) (message h) (listening h).
Definition set_last_update_time (t : Z) (h : handler) : handler :=
  mkHandler (message_text h) t (is_done h) (abortController h) (message h) (listening h).
Definition set_abortController (a : option bool) (h : handler) : handler :=
  mkHandler (message_text h) (last_update_time h) (is_done h) a (message h) (listening h).
Definition set_disposed (h : handler) : handler :=
  mkHandler (message_text h) (last_update_time h) true (abortController h) (message h) false.

(** The constructor. *)
Definition new (m : MessageResponse) : handler * list effect :=
  (mkHandler "" 0 false None m true, [on_stop]).

Definition setPrompt (prompt : string) (h : handler) : handler :=
  set_message_text prompt h.

(** [dispose]: the body has no suspension point. *)
Definition dispose (h : handler) : handler * list effect :=
  if is_done h then (h, [])
  else (set_disposed h, [off_stop; onDispose]).

(** Suspension points of [run] (with those of [handleError], which only
    [run] calls and awaits). *)
Inductive run_pc :=
  | RunNotStarted
  | AwaitGeneratingEvent                              (* line 27 *)
  | AwaitGenerateContentStream                        (* line 35 *)
  | AwaitNextChunk (fullResponse : string)            (* line 44 *)
  | AwaitLoopUpdate (fullResponse : string) (now : Z) (* line 54 *)
  | AwaitFinalUpdate                                  (* line 63 *)
  | AwaitClearEvent                                   (* line 68 *)
  | AwaitCancelClear                                  (* line 77 *)
  | AwaitErrorEvent (e : thrown)                      (* line 123 *)
  | AwaitErrorUpdate (e : thrown)                     (* line 129 *)
  | RunResolved
  | RunRejected (e : thrown).

(** How the environment settles the promise [run] is suspended on.  [Chunk]
    is the stream yielding a chunk; it carries what [chunk.text()] returns
    and what [Date.now()] reads while that chunk is processed.
    [ChunkThrows] is the stream yielding a chunk whose [text()] throws when
    it is called. *)
Inductive settle :=
  | Fulfilled
  | Rejected (e : thrown)
  | Chunk (chunkText : string) (now : Z)
  | ChunkThrows (e : thrown)
  | StreamEnd.

Definition clear_of (h : handler) : effect :=
  sendEvent (ai_indicator_clear (cid (message h)) (id (message h))).

(** [handleError] up to its first [await]: [None] when it returned. *)
Definition handleError (e : thrown) (h : handler) : handler * option run_pc * list effect :=
  if is_done h then (h, None, [])
  else (h, Some (AwaitErrorEvent e),
        [sendEvent (ai_indicator_update AI_STATE_ERROR (cid (message h)) (id (message h)))]).

Definition error_text (e : error) : string :=
  match err_message e with
  | Some m => m
  | None => "Error generating the message"
  end.

(** The [set] object of line 130, evaluated after the error event of
    [handleError] was fulfilled: [text], then [message].  Reading [message]
    off [null] or [undefined] throws, and so does calling a [toString] that
    is not callable; [inl] is the [TypeError] thrown. *)
Definition rewrite_args (e : thrown) : error + string * string :=
  match e with
  | thrown_null => inl (TypeError "Cannot read properties of null (reading 'message')")
  | thrown_undefined =>
      inl (TypeError "Cannot read properties of undefined (reading 'message')")
  | thrown_value v =>
      match err_toString v with
      | Some s => inr (error_text v, s)
      | None => inl (TypeError "error.toString is not a function")
      end
  end.

(** The [finally] block: [dispose], then the promise of [run] settles. *)
Definition run_finally (outcome : run_pc) (h : handler) : handler * run_pc * list effect :=
  let '(h', eff) := dispose h in (h', outcome, eff).

Definition is_AbortError (e : thrown) : bool :=
  match e with
  | thrown_value v => instanceof_Error v && String.eqb (err_name v) "AbortError"
  | _ => false
  end.

(** The [catch] block, up to its first [await]. *)
Definition run_catch (e : thrown) (h : handler) : handler * run_pc * list effect :=
  if is_AbortError e then
    (h, AwaitCancelClear, [console_log ["Generation was cancelled"]; clear_of h])
  else
    let '(h1, k, eff) := handleError e h in
    match k with
    | Some pc => (h1, pc, console_error "Error during generation:" e :: eff)
    | None =>
        let '(h2, pc, eff') := run_finally RunResolved h1 in
        (h2, pc, console_error "Error during generation:" e :: eff ++ eff')
    end.

(** [run] from the call to its first [await]. *)
Definition run_start (h : handler) : handler * run_pc * list effect :=
  let h1 := set_abortController (Some false) h in
  (h1, AwaitGeneratingEvent,
   [sendEvent (ai_indicator_update AI_STATE_GENERATING (cid (message h1)) (id (message h1)))]).

(** The statements after the [for await] loop, up to the next [await]. *)
Definition run_after_loop (fullResponse : string) (h : handler) : handler * run_pc * list effect :=
  (h, AwaitFinalUpdate, [partialUpdateMessage (id (message h)) fullResponse None]).

(** The loop body for a chunk whose [text()] throws: the [is_done] test
    comes first. *)
Definition run_chunk_throws (fullResponse : string) (e : thrown) (h : handler)
  : handler * run_pc * list effect :=
  if is_done h then run_after_loop fullResponse h else run_catch e h.

(** The loop body for one chunk. *)
Definition run_chunk (fullResponse chunkText : string) (now : Z) (h : handler)
  : handler * run_pc * list effect :=
  if is_done h then run_after_loop fullResponse h
  else if truthy chunkText then
    let fullResponse' := fullResponse +:+ chunkText in
    if bool_decide (now - last_update_time h > 1000) then
      (h, AwaitLoopUpdate fullResponse' now,
       [partialUpdateMessage (id (message h)) fullResponse' None])
    else (h, AwaitNextChunk fullResponse', [])
  else (h, AwaitNextChunk fullResponse, []).

(** [run] resumed at suspension point [pc] with the settled promise [s].  A
    settlement that cannot occur at [pc] leaves everything as it is. *)
Definition run_resume (pc : run_pc) (s : settle) (h : handler) : handler * run_pc * list effect :=
  match pc, s with
  | AwaitGeneratingEvent, Fulfilled =>
      (h, AwaitGenerateContentStream, [generateContentStream (message_text h)])
  | AwaitGenerateContentStream, Fulfilled => (h, AwaitNextChunk "", [])
  | AwaitNextChunk fullResponse, Chunk chunkText now => run_chunk fullResponse chunkText now h
  | AwaitNextChunk fullResponse, ChunkThrows e => run_chunk_throws fullResponse e h
  | AwaitNextChunk fullResponse, StreamEnd => run_after_loop fullResponse h
  | AwaitLoopUpdate fullResponse now, Fulfilled =>
      (set_last_update_time now h, AwaitNextChunk fullResponse, [])
  | AwaitFinalUpdate, Fulfilled => (h, AwaitClearEvent, [clear_of h])
  | AwaitClearEvent, Fulfilled => run_finally RunResolved h
  | (AwaitGeneratingEvent | AwaitGenerateContentStream | AwaitNextChunk _
     | AwaitLoopUpdate _ _ | AwaitFinalUpdate | AwaitClearEvent), Rejected e =>
      run_catch e h
  | AwaitCancelClear, Fulfilled => run_finally RunResolved h
  | AwaitErrorEvent e, Fulfilled =>
      match rewrite_args e with
      | inr (set_text, set_message) =>
          (h, AwaitErrorUpdate e,
           [partialUpdateMessage (id (message h)) set_text (Some set_message)])
      | inl type_error => run_finally (RunRejected type_error) h
      end
  | AwaitErrorUpdate e, Fulfilled =>
      let '(h1, eff) := dispose h in
      let '(h2, pc', eff') := run_finally RunResolved h1 in
      (h2, pc', eff ++ eff')
  | (AwaitCancelClear | AwaitErrorEvent _ | AwaitErrorUpdate _), Rejected e' =>
      run_finally (RunRejected e') h
  | _, _ => (h, pc, [])
  end.

(** [handleStopGenerating] up to its [await]: the boolean tells whether it is
    suspended on [sendEvent] (otherwise it returned). *)
Definition handleStopGenerating (event_message_id : option string) (h : handler)
  : handler * bool * list effect :=
  if is_done h || negb (bool_decide (event_message_id = Some (id (message h)))) then
    (h, false, [])
  else
    let log := console_log ["Stop generating for message"; id (message h)] in
    match abortController h with
    | Some _ => (set_abortController (Some true) h, true, [log; abort; clear_of h])
    | None => (h, true, [log; clear_of h])
    end.

(** [handleStopGenerating] resumed: [dispose] when [sendEvent] fulfilled; a
    rejection leaves the callback's promise rejected. *)
Definition handleStopGenerating_resume (ok : bool) (h : handler) : handler * list effect :=
  if ok then dispose h else (h, []).

(** A handler with its coroutines: the suspension point of [run] and the
    number of [handleStopGenerating] calls suspended on [sendEvent]. *)
Record config := mkConfig {
  self : handler;
  pc : run_pc;
  stop_pending : nat;
}.

Inductive input :=
  | call_run                                   (* handler.run(), called once *)
  | settle_run (s : settle)
  | stop_event (event_message_id : option string)   (* "ai_indicator.stop" delivered *)
  | settle_stop (ok : bool)
  | call_dispose.                              (* handler.dispose() from outside *)

Definition step (c : config) (i : input) : config * list effect :=
  match i with
  | call_run =>
      match pc c with
      | RunNotStarted =>
          let '(h, k, eff) := run_start (self c) in (mkConfig h k (stop_pending c), eff)
      | _ => (c, [])
      end
  | settle_run s =>
      let '(h, k, eff) := run_resume (pc c) s (self c) in (mkConfig h k (stop_pending c), eff)
  | stop_event m =>
      let '(h, suspended, eff) := handleStopGenerating m (self c) in
      (mkConfig h (pc c) (if suspended then S (stop_pending c) else stop_pending c), eff)
  | settle_stop ok =>
      match stop_pending c with
      | O => (c, [])
      | S n =>
          let '(h, eff) := handleStopGenerating_resume ok (self c) in
          (mkConfig h (pc c) n, eff)
      end
  | call_dispose =>
      let '(h, eff) := dispose (self c) in (mkConfig h (pc c) (stop_pending c), eff)
  end.

(** Running a list of inputs: the final state and everything issued. *)
Fixpoint exec (c : config) (ins : list input) : config * list effect :=
  match ins with
  | [] => (c, [])
  | i :: ins' =>
      let '(c1, e1) := step c i in
      let '(c2, e2) := exec c1 ins' in
      (c2, e1 ++ e2)
  end.

(** A handler as the dispatcher leaves it: constructed, prompt set. *)
Definition init (m : MessageResponse) (prompt : string) : config :=
  mkConfig (setPrompt prompt (fst (new m))) RunNotStarted 0.

End Handler.

(** ** GeminiAgent *)
Module Agent.

Definition nl : string := String (Ascii.ascii_of_nat 10) EmptyString.
Definition dq : string := String (Ascii.ascii_of_nat 34) EmptyString.

(** [getWritingAssistantPrompt]; the formatted date is an argument. *)
Definition getWritingAssistantPrompt (currentDate : string) (context : option string) : string :=
  "You are an expert AI Writing Assistant. Your primary purpose is to be a collaborative writing partner." +:+ nl +:+
  nl +:+
  "**Your Core Capabilities:**" +:+ nl +:+
  "- Content Creation, Improvement, Style Adaptation, Brainstorming, and Writing Coaching." +:+ nl +:+
  "- **Web Search**: You have the ability to search the web for up-to-date information when needed." +:+ nl +:+
  "- **Current Date**: Today's date is " +:+ currentDate +:+ ". Please use this for any time-sensitive queries." +:+ nl +:+
  nl +:+
  "**Crucial Instructions:**" +:+ nl +:+
  "1. When users ask for current information, news, or facts, you should search the web for the most up-to-date information." +:+ nl +:+
  "2. Synthesize information from web searches to provide comprehensive and accurate answers. Cite sources if available." +:+ nl +:+
  "3. Be direct and production-ready in your responses." +:+ nl +:+
  "4. Use clear formatting and structure." +:+ nl +:+
  "5. Never begin responses with phrases like " +:+ dq +:+ "Here's the edit:" +:+ dq +:+ ", " +:+
    dq +:+ "Here are the changes:" +:+ dq +:+ ", or similar introductory statements." +:+ nl +:+
  "6. Provide responses directly and professionally without unnecessary preambles." +:+ nl +:+
  nl +:+
  "**Writing Context**: " +:+
    (match context with
     | Some c => if truthy c then c else "General writing assistance."
     | None => "General writing assistance."
     end) +:+ nl +:+
  nl +:+
  "Your goal is to provide accurate, current, and helpful written content. Always strive for clarity, accuracy, and helpfulness in your responses.".

(** The model handle [init] builds: its name and generation parameters
    (temperature and topP as fractions). *)
Record GenerativeModel := mkModel {
  model_name : string;
  temperature : Z * Z;
  topK : Z;
  topP : Z * Z;
  maxOutputTokens : Z;
}.

(** Calls issued by the agent; those of its handlers are tagged with the
    handler. *)
Inductive effect :=
  | of_handler (h : nat) (e : Handler.effect)
  | on_message_new                       (* chatClient.on("message.new", ...) *)
  | off_message_new                      (* chatClient.off("message.new", ...) *)
  | disconnectUser
  | sendMessage (msg_text : string) (msg_ai_generated : bool)
  | sendEvent (e : channel_event)
  | console_log (msg : string).

(** Suspension points of a [handleMessage] call. *)
Inductive msg_task :=
  | AwaitSendMessage (fullPrompt : string)                                  (* line 242 *)
  | AwaitThinkingEvent (fullPrompt : string) (channelMessage : MessageResponse). (* line 247 *)

(** The agent's fields.  Handler objects live in [heap]; a reference to a
    handler is its index there, so [handlers] is the array of references.
    [genAI] holds the API key the client was built with.  [tasks] are the
    suspended [handleMessage] calls and [disposing] counts the [dispose]
    calls suspended on [disconnectUser]. *)
Record agent := mkAgent {
  genAI : option string;
  model : option GenerativeModel;
  lastInteractionTs : Z;
  handlers : list nat;
  heap : list Handler.config;
  tasks : list msg_task;
  disposing : nat;
}.

Definition set_handlers (l : list nat) (a : agent) : agent :=
  mkAgent (genAI a) (model a) (lastInteractionTs a) l (heap a) (tasks a) (disposing a).
Definition set_heap (hp : list Handler.config) (a : agent) : agent :=
  mkAgent (genAI a) (model a) (lastInteractionTs a) (handlers a) hp (tasks a) (disposing a).
Definition set_tasks (t : list msg_task) (a : agent) : agent :=
  mkAgent (genAI a) (model a) (lastInteractionTs a) (handlers a) (heap a) t (disposing a).
Definition set_disposing (n : nat) (a : agent) : agent :=
  mkAgent (genAI a) (model a) (lastInteractionTs a) (handlers a) (heap a) (tasks a) n.
Definition set_lastInteractionTs (t : Z) (a : agent) : agent :=
  mkAgent (genAI a) (model a) t (handlers a) (heap a) (tasks a) (disposing a).

(** The constructor; [now] is what [Date.now()] reads. *)
Definition new (now : Z) : agent := mkAgent None None now [] [] [] 0.

Definition getLastInteraction (a : agent) : Z := lastInteractionTs a.

(** [init]: [inl] is the thrown error's message. *)
Definition init (apiKey : option string) (a : agent) : string + agent * list effect :=
  match apiKey with
  | Some k =>
      if truthy k then
        inr (mkAgent (Some k)
               (Some (mkModel "gemini-1.5-flash" (7, 10) 40 (95, 100) 8192))
               (lastInteractionTs a) (handlers a) (heap a) (tasks a) (disposing a),
             [on_message_new])
      else inl "Gemini API key is required"
  | None => inl "Gemini API key is required"
  end.

(** [removeHandler]: a new array without the reference. *)
Definition removeHandler (handlerToRemove : nat) (a : agent) : agent :=
  set_handlers (filter (fun handler => handler ≠ handlerToRemove) (handlers a)) a.

(** The [onDispose] callback of handler [h] is [() => this.removeHandler(h)]:
    the agent's reaction to what a handler issued. *)
Fixpoint callbacks (h : nat) (effs : list Handler.effect) (a : agent) : agent :=
  match effs with
  | [] => a
  | Handler.onDispose :: effs' => callbacks h effs' (removeHandler h a)
  | _ :: effs' => callbacks h effs' a
  end.

(** One stimulus for the handler object at [h]. *)
Definition deliver (h : nat) (i : Handler.input) (a : agent) : agent * list effect :=
  match heap a !! h with
  | Some c =>
      let '(c', eff) := Handler.step c i in
      (callbacks h eff (set_heap (<[h := c']> (heap a)) a), of_handler h <$> eff)
  | None => (a, [])
  end.

(** [handleMessage] up to its first [await]. *)
Definition handleMessage (e : Event) (now : Z) (currentDate : string) (a : agent)
  : agent * list effect :=
  match genAI a, model a with
  | Some _, Some _ =>
      match ev_message e with
      | None => (a, [])
      | Some m =>
          if ai_generated m then (a, [])
          else
            match text m with
            | None => (a, [])
            | Some message =>
                if truthy message then
                  let a1 := set_lastInteractionTs now a in
                  let context :=
                    match custom_writingTask m with
                    | Some writingTask =>
                        if truthy writingTask then Some ("Writing Task: " +:+ writingTask)
                        else None
                    | None => None
                    end in
                  let instructions := getWritingAssistantPrompt currentDate context in
                  let fullPrompt := instructions +:+ nl +:+ nl +:+ "User Message: " +:+ message in
                  (set_tasks (tasks a1 ++ [AwaitSendMessage fullPrompt]) a1, [sendMessage "" true])
                else (a, [])
            end
      end
  | _, _ => (a, [console_log "Gemini not initialized"])
  end.

(** [handleMessage] resumed with the message [sendMessage] returned, or with
    its rejection ([None]), which ends the call. *)
Definition handleMessage_sent (k : nat) (r : option MessageResponse) (a : agent)
  : agent * list effect :=
  match tasks a !! k with
  | Some (AwaitSendMessage fullPrompt) =>
      match r with
      | Some channelMessage =>
          (set_tasks (<[k := AwaitThinkingEvent fullPrompt channelMessage]> (tasks a)) a,
           [sendEvent (ai_indicator_update AI_STATE_THINKING (cid channelMessage) (id channelMessage))])
      | None => (set_tasks (delete k (tasks a)) a, [])
      end
  | _ => (a, [])
  end.

(** [handleMessage] resumed after the "thinking" event: the handler is
    built, given its prompt, pushed on [handlers] and started. *)
Definition handleMessage_spawn (k : nat) (ok : bool) (a : agent) : agent * list effect :=
  match tasks a !! k with
  | Some (AwaitThinkingEvent fullPrompt channelMessage) =>
      let a1 := set_tasks (delete k (tasks a)) a in
      if ok then
        let handler := length (heap a1) in
        let '(h0, eff0) := Handler.new channelMessage in
        let c0 := Handler.mkConfig (Handler.setPrompt fullPrompt h0) Handler.RunNotStarted 0 in
        let a2 := set_handlers (handlers a1 ++ [handler]) (set_heap (heap a1 ++ [c0]) a1) in
        let '(a3, eff1) := deliver handler Handler.call_run a2 in
        (a3, (of_handler handler <$> eff0) ++ eff1)
      else (a1, [])
  | _ => (a, [])
  end.

(** [this.handlers.forEach((handler) => handler.dispose())] over the array
    [forEach] was called on: a callback that reassigns [this.handlers] does
    not change the array being walked. *)
Fixpoint forEach_dispose (array : list nat) (a : agent) : agent * list effect :=
  match array with
  | [] => (a, [])
  | handler :: rest =>
      let '(a1, e1) := deliver handler Handler.call_dispose a in
      let '(a2, e2) := forEach_dispose rest a1 in
      (a2, e1 ++ e2)
  end.

(** [dispose] up to its [await]. *)
Definition dispose (a : agent) : agent * list effect :=
  (set_disposing (S (disposing a)) a, [off_message_new; disconnectUser]).

(** [dispose] resumed: [None] when [disconnectUser] rejected and [dispose]
    rejects with it, otherwise the state once [dispose] has completed. *)
Definition dispose_resume (ok : bool) (a : agent) : option (agent * list effect) :=
  if ok then
    let '(a1, eff) := forEach_dispose (handlers a) a in
    Some (set_handlers [] a1, eff)
  else None.

(** An "ai_indicator.stop" event reaches the callback of every handler that
    is still registered on the client, in registration order. *)
Fixpoint broadcast_stop (hs : list nat) (event_message_id : option string) (a : agent)
  : agent * list effect :=
  match hs with
  | [] => (a, [])
  | h :: rest =>
      let '(a1, e1) :=
        match heap a !! h with
        | Some c =>
            if Handler.listening (Handler.self c)
            then deliver h (Handler.stop_event event_message_id) a
            else (a, [])
        | None => (a, [])
        end in
      let '(a2, e2) := broadcast_stop rest event_message_id a1 in
      (a2, e1 ++ e2)
  end.

Inductive input :=
  | message_new (e : Event) (now : Z) (currentDate : string)   (* "message.new" delivered *)
  | settle_sendMessage (k : nat) (r : option MessageResponse)
  | settle_thinking (k : nat) (ok : bool)
  | ai_indicator_stop (e : Event)                              (* "ai_indicator.stop" delivered *)
  | settle_handler_run (h : nat) (s : Handler.settle)
  | settle_handler_stop (h : nat) (ok : bool)
  | call_dispose
  | settle_disconnect (ok : bool).

Definition step (a : agent) (i : input) : agent * list effect :=
  match i with
  | message_new e now currentDate => handleMessage e now currentDate a
  | settle_sendMessage k r => handleMessage_sent k r a
  | settle_thinking k ok => handleMessage_spawn k ok a
  | ai_indicator_stop e => broadcast_stop (seq 0 (length (heap a))) (ev_message_id e) a
  | settle_handler_run h s => deliver h (Handler.settle_run s) a
  | settle_handler_stop h ok => deliver h (Handler.settle_stop ok) a
  | call_dispose => dispose a
  | settle_disconnect ok =>
      match disposing a with
      | O => (a, [])
      | S n =>
          match dispose_resume ok (set_disposing n a) with
          | Some r => r
          | None => (set_disposing n a, [])
          end
      end
  end.

Fixpoint exec (a : agent) (ins : list input) : agent * list effect :=
  match ins with
  | [] => (a, [])
  | i :: ins' =>
      let '(a1, e1) := step a i in
      let '(a2, e2) := exec a1 ins' in
      (a2, e1 ++ e2)
  end.

End Agent.

(** ** Observations on runs *)

Import Handler.

(** Number of calls of the [onDispose] callback in what a handler issued. *)
Definition is_onDispose (e : effect) : bool :=
  match e with onDispose => true | _ => false end.

Definition count_onDispose (tr : list effect) : nat := length (List.filter is_onDispose tr).

Definition done_count (h : handler) : nat := if is_done h then 1%nat else 0%nat.

(** The texts of the updates that carry the accumulated response: the calls
    of lines 54 and 63, whose [set] has the [text] field only.  (The update
    of [handleError] also sets [message].) *)
Definition update_text (e : effect) : option string :=
  match e with
  | partialUpdateMessage _ t None => Some t
  | _ => None
  end.

Definition update_texts (tr : list effect) : list string := omap update_text tr.

(** Each text extends the one before it, the first one extends [p]. *)
Fixpoint chain_from (p : string) (l : list string) : Prop :=
  match l with
  | [] => True
  | t :: l' => extends p t /\ chain_from t l'
  end.

(** The chunk texts the loop body received while [is_done] was false, over a
    run of inputs. *)
Fixpoint appended (c : config) (ins : list input) : list string :=
  match ins with
  | [] => []
  | i :: ins' =>
      match pc c, i with
      | AwaitNextChunk _, settle_run (Chunk chunkText _) =>
          if is_done (self c) then appended (fst (step c i)) ins'
          else chunkText :: appended (fst (step c i)) ins'
      | _, _ => appended (fst (step c i)) ins'
      end
  end.

Definition concat_texts (l : list string) : string := foldr String.append "" l.

(** The clock reading at which a step issues the throttled update of line
    54, if it does: the step leaves [AwaitNextChunk] for [AwaitLoopUpdate]. *)
Definition loop_flush (c : config) (i : input) : option Z :=
  match pc c, pc (fst (step c i)) with
  | AwaitNextChunk _, AwaitLoopUpdate _ now => Some now
  | _, _ => None
  end.

Fixpoint flush_times (c : config) (ins : list input) : list Z :=
  match ins with
  | [] => []
  | i :: ins' =>
      match loop_flush c i with
      | Some t => t :: flush_times (fst (step c i)) ins'
      | None => flush_times (fst (step c i)) ins'
      end
  end.


Definition is_generate (e : effect) : bool :=
  match e with generateContentStream _ => true | _ => false end.

(** [run] is suspended inside the [try] block. *)
Definition in_try (k : run_pc) : bool :=
  match k with
  | AwaitGeneratingEvent | AwaitGenerateContentStream | AwaitNextChunk _
  | AwaitLoopUpdate _ _ | AwaitFinalUpdate | AwaitClearEvent => true
  | _ => false
  end.

(** [run] has not yet left the loop of lines 44-60. *)
Definition before_loop_exit (k : run_pc) : bool :=
  match k with
  | RunNotStarted | AwaitGeneratingEvent | AwaitGenerateContentStream
  | AwaitNextChunk _ | AwaitLoopUpdate _ _ => true
  | _ => false
  end.

(** [run] has not yet asked the provider for the stream. *)
Definition before_request (k : run_pc) : bool :=
  match k with
  | RunNotStarted | AwaitGeneratingEvent => true
  | _ => false
  end.

(** Writes on the chat transport among the agent's calls (its own and its
    handlers'). *)
Definition transport_write (e : Agent.effect) : bool :=
  match e with
  | Agent.of_handler _ (sendEvent _) | Agent.of_handler _ (partialUpdateMessage _ _ _) => true
  | Agent.sendMessage _ _ | Agent.sendEvent _ => true
  | _ => false
  end.


(** The value of [fullResponse] at a suspension point of the loop (and
    before it), [None] once the loop is left. *)
Definition cur_full (k : run_pc) : option string :=
  match k with
  | AwaitNextChunk f | AwaitLoopUpdate f _ => Some f
  | RunNotStarted | AwaitGeneratingEvent | AwaitGenerateContentStream => Some ""
  | _ => None
  end.

(** [p] is a text that every later accumulated-text update must extend:
    at most the text already sent. *)
Definition chain_bound (k : run_pc) (p : string) : Prop :=
  match cur_full k with
  | Some f => extends p f
  | None => True
  end.

(** Handler object [h] is accounted for: it is in the registry, or it is
    done. *)
Definition tracked (h : nat) (a : Agent.agent) : Prop :=
  exists c, Agent.heap a !! h = Some c /\ (h ∈ Agent.handlers a \/ is_done (self c) = true).

(** The promise of [run] has settled. *)
Definition settled (k : run_pc) : bool :=
  match k with
  | RunResolved | RunRejected _ => true
  | _ => false
  end.

(** [run] is suspended in its [catch] block or in [handleError]. *)
Definition in_recovery (k : run_pc) : bool :=
  match k with
  | AwaitCancelClear | AwaitErrorEvent _ | AwaitErrorUpdate _ => true
  | _ => false
  end.

(** The listener is registered exactly while the handler is not done, and a
    settled [run] has disposed the handler. *)
Definition lifecycle_ok (c : config) : Prop :=
  listening (self c) = negb (is_done (self c))
  /\ (settled (pc c) = true -> is_done (self c) = true).


(** The effect addresses message [m]: events carry its [cid] and [id],
    updates its [id]; calls that name no message qualify. *)
Definition own_message (m : MessageResponse) (e : effect) : bool :=
  match e with
  | sendEvent (ai_indicator_update _ c i) | sendEvent (ai_indicator_clear c i) =>
      String.eqb c (cid m) && String.eqb i (id m)
  | partialUpdateMessage i _ _ => String.eqb i (id m)
  | _ => true
  end.

Definition is_abort (e : effect) : bool :=
  match e with abort => true | _ => false end.

(** The input is a stop signal that names message [m]. *)
Definition is_own_stop (m : MessageResponse) (i : input) : bool :=
  match i with
  | stop_event (Some x) => String.eqb x (id m)
  | _ => false
  end.

(** The registry holds, once each, exactly the handler objects that are
    not done. *)
Definition registry_ok (a : Agent.agent) : Prop :=
  NoDup (Agent.handlers a)
  /\ forall h, h ∈ Agent.handlers a
               <-> exists c, Agent.heap a !! h = Some c /\ is_done (self c) = false.

(** The tests [handleMessage] makes before it acts. *)
Definition accepts (a : Agent.agent) (e : Event) : bool :=
  match Agent.genAI a, Agent.model a, ev_message e with
  | Some _, Some _, Some m =>
      negb (ai_generated m)
      && match text m with Some message => truthy message | None => false end
  | _, _, _ => false
  end.

(** The prompt [handleMessage] assembles for an accepted message. *)
Definition fullPrompt_of (m : Message) (currentDate : string) : string :=
  Agent.getWritingAssistantPrompt currentDate
    (match custom_writingTask m with
     | Some writingTask =>
         if truthy writingTask then Some ("Writing Task: " +:+ writingTask) else None
     | None => None
     end)
  +:+ Agent.nl +:+ Agent.nl +:+ "User Message: "
  +:+ (match text m with Some message => message | None => "" end).




(** Sample values for the concrete runs below. *)
Definition sample_message : MessageResponse := mkMessageResponse "messaging:general" "m1".

Definition sample_error : error :=
  mkError true "TypeError" (Some "fetch failed") (Some "TypeError: fetch failed").

Definition sample_user_event (body : string) : Event :=
  mkEvent (Some (mkMessage (Some body) false None)) None.

Definition sample_ai_event : Event :=
  mkEvent (Some (mkMessage (Some "The summary is Y.") true None)) None.

(** A handler in the middle of its loop, last update at 5000 ms. *)
Definition sample_streaming : config :=
  mkConfig (mkHandler "prompt" 5000 false (Some false) sample_message true)
    (AwaitNextChunk "The ") 0.

(** The same handler once disposed. *)
Definition sample_disposed : config :=
  mkConfig (mkHandler "prompt" 5000 true (Some true) sample_message false)
    (AwaitNextChunk "The ") 0.

(** Scenario A up to the end of the stream: three chunks with no delay. *)
Definition scenario_A : list input :=
  [call_run; settle_run Fulfilled; settle_run Fulfilled;
   settle_run (Chunk "The " 1700000000000); settle_run Fulfilled;
   settle_run (Chunk "summary " 1700000000000);
   settle_run (Chunk "is Y." 1700000000001)].

(** An initialised agent. *)
Definition sample_agent : Agent.agent :=
  match Agent.init (Some "key") (Agent.new 1700000000000) with
  | inr (a, _) => a
  | inl _ => Agent.new 1700000000000
  end.

(** Scenario D up to the agent's [dispose] call: two user messages, each
    with its placeholder and its handler in flight. *)
Definition scenario_D : list Agent.input :=
  [Agent.message_new (sample_user_event "Summarize X") 1700000000100 "November 14, 2023";
   Agent.settle_sendMessage 0 (Some (mkMessageResponse "messaging:general" "m1"));
   Agent.settle_thinking 0 true;
   Agent.message_new (sample_user_event "Summarize Z") 1700000000200 "November 14, 2023";
   Agent.settle_sendMessage 0 (Some (mkMessageResponse "messaging:general" "m2"));
   Agent.settle_thinking 0 true;
   Agent.settle_handler_run 0 Fulfilled;
   Agent.call_dispose].

(** ** Proofs: disposal *)

Ltac boolcases :=
  repeat match goal with
    | |- context [if ?b then _ else _] => destruct b eqn:?
    | |- context [match ?x with _ => _ end] => destruct x eqn:?
    end.

(** Case analysis on the tests the handler's code branches on. *)
Ltac run_cases :=
  unfold run_chunk, run_chunk_throws, run_after_loop, run_catch, handleError, run_finally,
    handleStopGenerating, handleStopGenerating_resume, dispose;
  repeat match goal with
    | |- context [rewrite_args ?e] => destruct (rewrite_args e) as [?|[? ?]] eqn:?
    | |- context [is_done ?h] => destruct (is_done h) eqn:?
    | |- context [is_AbortError ?e] => destruct (is_AbortError e) eqn:?
    | |- context [truthy ?t] => destruct (truthy t) eqn:?
    | |- context [bool_decide ?P] => destruct (bool_decide P) eqn:?
    | |- context [abortController ?h] => destruct (abortController h) eqn:?
    end;
  simpl.

Lemma dispose_live h :
  is_done h = false -> dispose h = (set_disposed h, [off_stop; onDispose]).
Proof. intros H. unfold dispose. now rewrite H. Qed.

Lemma dispose_done h : is_done h = true -> dispose h = (h, []).
Proof. intros H. unfold dispose. now rewrite H. Qed.

Lemma dispose_sets_done h : is_done (fst (dispose h)) = true.
Proof. unfold dispose. destruct (is_done h) eqn:E; simpl; auto. Qed.

Lemma dispose_count h :
  (count_onDispose (snd (dispose h)) + done_count h)%nat = done_count (fst (dispose h)).
Proof. unfold dispose, done_count. destruct (is_done h) eqn:E; simpl; rewrite ?E; reflexivity. Qed.

(** Every step issues [onDispose] exactly when it takes [is_done] from false
    to true. *)
Lemma step_count c i :
  (count_onDispose (snd (step c i)) + done_count (self c))%nat
  = done_count (self (fst (step c i))).
Proof.
  destruct c as [h k n].
  destruct i as [ | s | m | ok | ]; simpl.
  - destruct k; simpl; try reflexivity.
  - destruct k, s; simpl; try reflexivity;
      unfold done_count; run_cases; simpl in *; try reflexivity; try congruence.
  - unfold handleStopGenerating, done_count.
    destruct h as [mt lt d ac msg ls]; simpl.
    boolcases; simpl in *; try reflexivity; congruence.
  - destruct n; simpl; [reflexivity|].
    destruct ok; simpl; [|reflexivity].
    pose proof (dispose_count h) as H. destruct (dispose h); simpl in *. exact H.
  - pose proof (dispose_count h) as H. destruct (dispose h); simpl in *. exact H.
Qed.

Lemma count_onDispose_app t1 t2 :
  count_onDispose (t1 ++ t2) = (count_onDispose t1 + count_onDispose t2)%nat.
Proof. unfold count_onDispose. now rewrite List.filter_app, length_app. Qed.

Lemma exec_count ins : forall c,
  (count_onDispose (snd (exec c ins)) + done_count (self c))%nat
  = done_count (self (fst (exec c ins))).
Proof.
  induction ins as [|i ins IH]; intros c; simpl; [reflexivity|].
  pose proof (step_count c i) as Hs.
  destruct (step c i) as [c1 e1]; simpl in Hs.
  specialize (IH c1). destruct (exec c1 ins) as [c2 e2]; simpl in *.
  rewrite count_onDispose_app. lia.
Qed.

(** [is_done] never goes back to false. *)
Lemma step_done_stable c i :
  is_done (self c) = true -> is_done (self (fst (step c i))) = true.
Proof.
  intros H. pose proof (step_count c i) as Hc.
  unfold done_count in Hc. rewrite H in Hc.
  destruct (is_done (self (fst (step c i)))); [reflexivity | lia].
Qed.

Lemma exec_done_stable ins : forall c,
  is_done (self c) = true -> is_done (self (fst (exec c ins))) = true.
Proof.
  induction ins as [|i ins IH]; intros c H; simpl; [exact H|].
  pose proof (step_done_stable c i H) as H1.
  destruct (step c i) as [c1 e1]; simpl in H1.
  specialize (IH c1 H1). destruct (exec c1 ins); simpl in *. exact IH.
Qed.

Lemma exec_call_dispose_done ins : forall c,
  call_dispose ∈ ins -> is_done (self (fst (exec c ins))) = true.
Proof.
  induction ins as [|i ins IH]; intros c Hin.
  - inversion Hin.
  - simpl. apply elem_of_cons in Hin as [<- | Hin].
    + pose proof (exec_done_stable ins (fst (step c call_dispose))) as H.
      simpl in *. pose proof (dispose_sets_done (self c)) as Hd.
      destruct (dispose (self c)) as [h eff]; simpl in *.
      specialize (H Hd). destruct (exec _ ins); simpl in *. exact H.
    + specialize (IH (fst (step c i)) Hin).
      destruct (step c i) as [c1 e1]; simpl in *.
      destruct (exec c1 ins); simpl in *. exact IH.
Qed.

(** ** Proofs: the registry *)

Lemma filter_ne_absent (h : nat) (l : list nat) :
  h ∉ l -> filter (fun handler => handler ≠ h) l = l.
Proof.
  induction l as [|x l IH]; intros Hn; [reflexivity|].
  apply not_elem_of_cons in Hn as [Hx Hl].
  rewrite filter_cons_True by congruence.
  now rewrite IH.
Qed.

Lemma removeHandler_absent h a : h ∉ Agent.handlers a -> Agent.removeHandler h a = a.
Proof.
  intros Hn. unfold Agent.removeHandler. rewrite filter_ne_absent by exact Hn.
  now destruct a.
Qed.

Lemma removeHandler_gone h a : h ∉ Agent.handlers (Agent.removeHandler h a).
Proof.
  unfold Agent.removeHandler; simpl. intros Hin.
  apply list_elem_of_filter in Hin as [Hne _]. now apply Hne.
Qed.

Lemma removeHandler_heap h a : Agent.heap (Agent.removeHandler h a) = Agent.heap a.
Proof. reflexivity. Qed.

Lemma callbacks_heap h effs : forall a, Agent.heap (Agent.callbacks h effs a) = Agent.heap a.
Proof.
  induction effs as [|e effs IH]; intros a; simpl; [reflexivity|].
  destruct e; rewrite IH; reflexivity.
Qed.

(** A handler that is not done is disposed and leaves the registry. *)
Lemma deliver_dispose_live h c a :
  Agent.heap a !! h = Some c -> is_done (self c) = false ->
  Agent.deliver h call_dispose a
  = (Agent.removeHandler h
       (Agent.set_heap
          (<[h := mkConfig (set_disposed (self c)) (pc c) (stop_pending c)]> (Agent.heap a)) a),
     [Agent.of_handler h off_stop; Agent.of_handler h onDispose]).
Proof.
  intros Hl Hd. unfold Agent.deliver. rewrite Hl. simpl.
  rewrite (dispose_live _ Hd). reflexivity.
Qed.

(** Disposing a handler that is done changes nothing anywhere. *)
Lemma deliver_dispose_done h c a :
  Agent.heap a !! h = Some c -> is_done (self c) = true ->
  Agent.deliver h call_dispose a = (a, []).
Proof.
  intros Hl Hd. unfold Agent.deliver. rewrite Hl. simpl.
  rewrite (dispose_done _ Hd). simpl.
  destruct c as [hh k n]; simpl in *.
  rewrite list_insert_id by exact Hl. now destruct a.
Qed.

(** What [handler.dispose()] does to the heap: the handler it is called on
    ends done, a done handler stays done, no object appears or vanishes. *)
Lemma deliver_dispose_heap h a h' c :
  Agent.heap a !! h' = Some c ->
  exists c', Agent.heap (fst (Agent.deliver h call_dispose a)) !! h' = Some c'
    /\ (is_done (self c) = true -> is_done (self c') = true)
    /\ (h' = h -> is_done (self c') = true).
Proof.
  intros Hl. unfold Agent.deliver.
  destruct (Agent.heap a !! h) as [ch|] eqn:Hh.
  - simpl. pose proof (dispose_sets_done (self ch)) as Hs.
    destruct (dispose (self ch)) as [hh eff] eqn:Hd; simpl in *.
    rewrite callbacks_heap; simpl.
    destruct (decide (h = h')) as [->|Hne].
    + rewrite list_lookup_insert_eq by (eapply lookup_lt_Some; eauto).
      eexists; split; [reflexivity|]. simpl. auto.
    + rewrite list_lookup_insert_ne by exact Hne.
      exists c. split; [exact Hl|]. split; [auto | congruence].
  - simpl. exists c. split; [exact Hl|]. split; [auto|].
    intros ->. congruence.
Qed.

Lemma forEach_dispose_heap array : forall a h c,
  Agent.heap a !! h = Some c ->
  exists c', Agent.heap (fst (Agent.forEach_dispose array a)) !! h = Some c'
    /\ (is_done (self c) = true -> is_done (self c') = true)
    /\ (h ∈ array -> is_done (self c') = true).
Proof.
  induction array as [|x array IH]; intros a h c Hl; simpl.
  - exists c. split; [exact Hl|]. split; [auto|]. intros Hin. inversion Hin.
  - destruct (deliver_dispose_heap x a h c Hl) as (c1 & Hl1 & Hst1 & Hx1).
    destruct (Agent.deliver x call_dispose a) as [a1 e1]; simpl in *.
    destruct (IH a1 h c1 Hl1) as (c2 & Hl2 & Hst2 & Hin2).
    destruct (Agent.forEach_dispose array a1) as [a2 e2]; simpl in *.
    exists c2. split; [exact Hl2|]. split; [auto|].
    intros Hin. apply elem_of_cons in Hin as [->|Hin]; auto.
Qed.

(** ** Proofs: guards of the callbacks *)

Lemma handleStopGenerating_ignored h m :
  is_done h = true \/ m <> Some (id (message h)) ->
  handleStopGenerating m h = (h, false, []).
Proof.
  intros H. unfold handleStopGenerating.
  destruct (is_done h) eqn:Hd; [reflexivity|].
  destruct H as [H|H]; [congruence|].
  rewrite bool_decide_eq_false_2 by exact H. reflexivity.
Qed.

Lemma deliver_stop_ignored h c a m :
  Agent.heap a !! h = Some c ->
  is_done (self c) = true \/ m <> Some (id (message (self c))) ->
  Agent.deliver h (stop_event m) a = (a, []).
Proof.
  intros Hl Hg. unfold Agent.deliver. rewrite Hl. simpl.
  rewrite (handleStopGenerating_ignored _ _ Hg). simpl.
  destruct c as [hh k n]; simpl in *.
  rewrite list_insert_id by exact Hl. now destruct a.
Qed.

Lemma deliver_other h h' i a c :
  h <> h' -> Agent.heap a !! h' = Some c ->
  Agent.heap (fst (Agent.deliver h i a)) !! h' = Some c
  /\ Forall (fun e => forall x, e <> Agent.of_handler h' x) (snd (Agent.deliver h i a)).
Proof.
  intros Hne Hl. unfold Agent.deliver.
  destruct (Agent.heap a !! h) as [ch|]; simpl; [|split; [exact Hl | constructor]].
  destruct (step ch i) as [c' eff]; simpl. split.
  - rewrite callbacks_heap; simpl. now rewrite list_lookup_insert_ne by exact Hne.
  - apply Forall_fmap, Forall_forall. intros e _ x. simpl. congruence.
Qed.

Lemma broadcast_stop_scoped m hs : forall a h c,
  Agent.heap a !! h = Some c ->
  is_done (self c) = true \/ m <> Some (id (message (self c))) ->
  Agent.heap (fst (Agent.broadcast_stop hs m a)) !! h = Some c
  /\ Forall (fun e => forall x, e <> Agent.of_handler h x) (snd (Agent.broadcast_stop hs m a)).
Proof.
  induction hs as [|x hs IH]; intros a h c Hl Hg; simpl.
  - split; [exact Hl | constructor].
  - assert (exists a1 e1,
      (match Agent.heap a !! x with
       | Some cx => if listening (self cx) then Agent.deliver x (stop_event m) a else (a, [])
       | None => (a, [])
       end) = (a1, e1)
      /\ Agent.heap a1 !! h = Some c
      /\ Forall (fun e => forall y, e <> Agent.of_handler h y) e1) as (a1 & e1 & -> & Hl1 & Hf1).
    { destruct (Agent.heap a !! x) as [cx|] eqn:Hx;
        [destruct (listening (self cx))|];
        try (exists a, []; repeat split; [exact Hl | constructor]).
      destruct (decide (x = h)) as [->|Hne].
      - rewrite Hl in Hx. injection Hx as <-.
        rewrite (deliver_stop_ignored h c a m Hl Hg).
        exists a, []. repeat split; [exact Hl | constructor].
      - destruct (deliver_other x h (stop_event m) a c Hne Hl) as [H1 H2].
        destruct (Agent.deliver x (stop_event m) a) as [a1 e1]; simpl in *.
        exists a1, e1. auto. }
    destruct (IH a1 h c Hl1 Hg) as [Hl2 Hf2].
    destruct (Agent.broadcast_stop hs m a1) as [a2 e2]; simpl in *.
    split; [exact Hl2 | now apply Forall_app].
Qed.

(** ** Theorems: disposal, stop-signal scoping, the error handler's guard *)

(** C2.  [dispose] is idempotent.  On a handler that is not done it sets
    [is_done], unregisters the stop listener and calls [onDispose]; on a done
    handler it returns with no effect and no state change, so a second call
    does nothing.  Over every interleaving of inputs of a handler built by
    the dispatcher ([run], settled promises, stop signals, outside calls of
    [dispose]), [onDispose] has been called once if the handler is done and
    not at all otherwise, and once as soon as [dispose] was called from
    outside.  In the agent, that callback takes the handler out of
    [handlers], and [dispose] on a done handler leaves the agent as it is. *)
Theorem dispose_idempotent :
  (forall h, is_done h = false -> dispose h = (set_disposed h, [off_stop; onDispose])
     /\ is_done (set_disposed h) = true /\ listening (set_disposed h) = false)
  /\ (forall h, is_done h = true -> dispose h = (h, []))
  /\ (forall h, dispose (fst (dispose h)) = (fst (dispose h), []))
  /\ (forall m p ins,
        (count_onDispose (snd (exec (init m p) ins)))
        = done_count (self (fst (exec (init m p) ins))))
  /\ (forall m p ins, call_dispose ∈ ins ->
        count_onDispose (snd (exec (init m p) ins)) = 1%nat)
  /\ (forall a h c, Agent.heap a !! h = Some c -> is_done (self c) = false ->
        (h ∉ Agent.handlers (fst (Agent.deliver h call_dispose a)))
        /\ snd (Agent.deliver h call_dispose a)
           = [Agent.of_handler h off_stop; Agent.of_handler h onDispose])
  /\ (forall a h c, Agent.heap a !! h = Some c -> is_done (self c) = true ->
        Agent.deliver h call_dispose a = (a, [])).
Proof.
  repeat apply conj.
  - intros h H. repeat split. exact (dispose_live h H).
  - exact dispose_done.
  - intros h. apply dispose_done, dispose_sets_done.
  - intros m p ins. pose proof (exec_count ins (init m p)) as H.
    simpl in H. rewrite Nat.add_0_r in H. exact H.
  - intros m p ins Hin. pose proof (exec_count ins (init m p)) as H.
    pose proof (exec_call_dispose_done ins (init m p) Hin) as Hd.
    unfold done_count in H. rewrite Hd in H. simpl in H. lia.
  - intros a h c Hl Hd. rewrite (deliver_dispose_live h c a Hl Hd). simpl.
    split; [|reflexivity]. apply removeHandler_gone.
  - intros a h c. apply deliver_dispose_done.
Qed.

(** C7.  A stop signal whose [message_id] is not the handler's own, or one
    that arrives when the handler is done, is ignored by
    [handleStopGenerating]: it returns at once, the handler's fields and
    coroutines are unchanged, nothing is issued (no abort, no event, no
    dispose).  In the agent, broadcasting such a signal leaves that handler
    object as it was and issues nothing on its behalf. *)
Theorem stop_signal_scoped (c : config) (m : option string) :
  is_done (self c) = true \/ m <> Some (id (message (self c))) ->
  handleStopGenerating m (self c) = (self c, false, [])
  /\ step c (stop_event m) = (c, [])
  /\ forall a h e, Agent.heap a !! h = Some c -> ev_message_id e = m ->
       Agent.heap (fst (Agent.step a (Agent.ai_indicator_stop e))) !! h = Some c
       /\ Forall (fun x => forall y, x <> Agent.of_handler h y)
            (snd (Agent.step a (Agent.ai_indicator_stop e))).
Proof.
  intros Hg. pose proof (handleStopGenerating_ignored _ _ Hg) as H.
  split; [exact H|]. split.
  - simpl. rewrite H. now destruct c.
  - intros a h e Hl <-. simpl. now apply broadcast_stop_scoped.
Qed.

(** C10.  [handleError] on a handler that is already done returns at once:
    no error indicator, no rewrite of the message text, state unchanged.
    When [run] catches a non-cancellation error in that state, all it issues
    is the [console.error] of its [catch] block, and it resolves. *)
Theorem handleError_after_dispose (e : thrown) (h : handler) :
  is_done h = true ->
  handleError e h = (h, None, [])
  /\ forall k, in_try k = true -> is_AbortError e = false ->
       run_resume k (Rejected e) h = (h, RunResolved, [console_error "Error during generation:" e]).
Proof.
  intros Hd. split.
  - unfold handleError. now rewrite Hd.
  - intros k Hk Ha.
    assert (run_catch e h = (h, RunResolved, [console_error "Error during generation:" e])) as Hc.
    { unfold run_catch, handleError, run_finally, dispose. rewrite Ha, Hd. simpl. rewrite Hd. reflexivity. }
    destruct k; simpl in Hk; try discriminate; simpl; exact Hc.
Qed.

(** ** Proofs: handlers stay accounted for *)

Lemma callbacks_quiet h effs : forall a,
  count_onDispose effs = 0%nat -> Agent.callbacks h effs a = a.
Proof.
  induction effs as [|e effs IH]; intros a Hc; [reflexivity|].
  destruct e; simpl in *; try (apply IH; exact Hc). discriminate.
Qed.

Lemma callbacks_other h h' effs : forall a,
  h <> h' -> h ∈ Agent.handlers a -> h ∈ Agent.handlers (Agent.callbacks h' effs a).
Proof.
  induction effs as [|e effs IH]; intros a Hne Hin; [exact Hin|].
  destruct e; simpl; try (apply IH; assumption).
  apply IH; [exact Hne|]. unfold Agent.removeHandler; simpl.
  apply list_elem_of_filter. split; assumption.
Qed.

Lemma deliver_tracked h h' i a : tracked h a -> tracked h (fst (Agent.deliver h' i a)).
Proof.
  intros (c & Hl & Hc). unfold Agent.deliver.
  destruct (Agent.heap a !! h') as [ch|] eqn:Hh; [|exists c; auto].
  pose proof (step_count ch i) as Hcount.
  destruct (step ch i) as [c' eff]; simpl in *. unfold tracked.
  rewrite callbacks_heap; simpl.
  destruct (decide (h' = h)) as [->|Hne].
  - rewrite list_lookup_insert_eq by (eapply lookup_lt_Some; eauto).
    exists c'. split; [reflexivity|].
    rewrite Hl in Hh. injection Hh as <-.
    unfold done_count in Hcount.
    destruct (is_done (self c')) eqn:Hd'; [now right|]. left.
    destruct (is_done (self c)) eqn:Hd; [lia|].
    rewrite callbacks_quiet by lia. simpl.
    destruct Hc as [Hin|Hin]; [exact Hin | discriminate].
  - rewrite list_lookup_insert_ne by exact Hne.
    exists c. split; [exact Hl|].
    destruct Hc as [Hin|Hd]; [left | now right].
    apply callbacks_other; [congruence | exact Hin].
Qed.

Lemma broadcast_stop_tracked h m hs : forall a,
  tracked h a -> tracked h (fst (Agent.broadcast_stop hs m a)).
Proof.
  induction hs as [|x hs IH]; intros a Ht; simpl; [exact Ht|].
  assert (tracked h
            (fst (match Agent.heap a !! x with
                  | Some cx =>
                      if listening (self cx) then Agent.deliver x (stop_event m) a else (a, [])
                  | None => (a, [])
                  end))) as Ht1.
  { destruct (Agent.heap a !! x) as [cx|]; [destruct (listening (self cx))|]; simpl;
      try exact Ht. now apply deliver_tracked. }
  destruct (match Agent.heap a !! x with
            | Some cx =>
                if listening (self cx) then Agent.deliver x (stop_event m) a else (a, [])
            | None => (a, [])
            end) as [a1 e1]; simpl in *.
  specialize (IH a1 Ht1).
  destruct (Agent.broadcast_stop hs m a1) as [a2 e2]; simpl in *. exact IH.
Qed.

Lemma tracked_fields h a a' :
  Agent.heap a' = Agent.heap a -> Agent.handlers a' = Agent.handlers a ->
  tracked h a -> tracked h a'.
Proof. unfold tracked. intros -> ->. auto. Qed.

Lemma handleMessage_fields e now d a :
  Agent.heap (fst (Agent.handleMessage e now d a)) = Agent.heap a
  /\ Agent.handlers (fst (Agent.handleMessage e now d a)) = Agent.handlers a.
Proof.
  unfold Agent.handleMessage.
  destruct (Agent.genAI a), (Agent.model a); simpl; auto.
  destruct (ev_message e) as [m|]; simpl; auto.
  destruct (ai_generated m); simpl; auto.
  destruct (text m) as [t|]; simpl; auto.
  destruct (truthy t); simpl; auto.
Qed.

Lemma handleMessage_sent_fields k r a :
  Agent.heap (fst (Agent.handleMessage_sent k r a)) = Agent.heap a
  /\ Agent.handlers (fst (Agent.handleMessage_sent k r a)) = Agent.handlers a.
Proof.
  unfold Agent.handleMessage_sent.
  destruct (Agent.tasks a !! k) as [[fp|fp cm]|]; simpl; auto.
  destruct r; simpl; auto.
Qed.

Lemma handleMessage_spawn_tracked h k ok a :
  tracked h a -> tracked h (fst (Agent.handleMessage_spawn k ok a)).
Proof.
  intros Ht. unfold Agent.handleMessage_spawn.
  destruct (Agent.tasks a !! k) as [[fp|fp cm]|]; simpl; try exact Ht.
  destruct ok; simpl.
  - match goal with
    | |- tracked h (fst (let '(a3, eff1) := Agent.deliver ?x ?i ?a2 in _)) =>
        assert (tracked h (fst (Agent.deliver x i a2))) as H;
        [|destruct (Agent.deliver x i a2); exact H]
    end.
    apply deliver_tracked. destruct Ht as (c & Hl & Hc).
    exists c. simpl. split.
    + now apply lookup_app_l_Some.
    + destruct Hc as [Hin|Hd]; [left | now right]. apply elem_of_app. now left.
  - eapply tracked_fields; [| |exact Ht]; reflexivity.
Qed.

Lemma forEach_dispose_tracked_done array : forall a h,
  (exists c, Agent.heap a !! h = Some c /\ (h ∈ array \/ is_done (self c) = true)) ->
  exists c', Agent.heap (fst (Agent.forEach_dispose array a)) !! h = Some c'
             /\ is_done (self c') = true.
Proof.
  intros a h (c & Hl & Hc).
  destruct (forEach_dispose_heap array a h c Hl) as (c' & Hl' & Hst & Hin).
  exists c'. split; [exact Hl'|]. destruct Hc; auto.
Qed.

Lemma step_tracked h a i : tracked h a -> tracked h (fst (Agent.step a i)).
Proof.
  intros Ht. destruct i as [e now d | k r | k ok | e | x s | x ok | | ok]; simpl.
  - destruct (handleMessage_fields e now d a) as [H1 H2].
    eapply tracked_fields; eauto.
  - destruct (handleMessage_sent_fields k r a) as [H1 H2].
    eapply tracked_fields; eauto.
  - now apply handleMessage_spawn_tracked.
  - now apply broadcast_stop_tracked.
  - now apply deliver_tracked.
  - now apply deliver_tracked.
  - eapply tracked_fields; [| |exact Ht]; reflexivity.
  - destruct (Agent.disposing a) as [|n]; [exact Ht|].
    destruct ok; simpl; [|eapply tracked_fields; [| |exact Ht]; reflexivity].
    destruct (forEach_dispose_tracked_done (Agent.handlers a) (Agent.set_disposing n a) h)
      as (c' & Hl' & Hd'); [exact Ht|].
    destruct (Agent.forEach_dispose (Agent.handlers a) (Agent.set_disposing n a)) as [a1 e1].
    simpl in *. exists c'. auto.
Qed.

Lemma exec_tracked h ins : forall a, tracked h a -> tracked h (fst (Agent.exec a ins)).
Proof.
  induction ins as [|i ins IH]; intros a Ht; [exact Ht|]. simpl.
  pose proof (step_tracked h a i Ht) as H1.
  destruct (Agent.step a i) as [a1 e1]; simpl in *.
  specialize (IH a1 H1). destruct (Agent.exec a1 ins); exact IH.
Qed.

(** ** Theorems: the dispatcher *)

(** C9.  When the agent's [dispose] completes (its [disconnectUser] was
    fulfilled), the registry is empty and every handler that was in it is
    done, whether or not it was done before; the call does not fail.  The
    same holds for every handler that was in the registry at an earlier
    state, whatever happened in between: one that disposed itself meanwhile
    has left the registry and is done.  Removing a handler that is not in the
    registry leaves the agent unchanged. *)
Theorem agent_dispose_completes (a : Agent.agent) (n : nat) :
  Agent.disposing a = S n ->
  is_Some (Agent.dispose_resume true (Agent.set_disposing n a))
  /\ Agent.handlers (fst (Agent.step a (Agent.settle_disconnect true))) = []
  /\ (forall h c, h ∈ Agent.handlers a -> Agent.heap a !! h = Some c ->
        exists c', Agent.heap (fst (Agent.step a (Agent.settle_disconnect true))) !! h = Some c'
                   /\ is_done (self c') = true)
  /\ (forall a0 ins h c, a = fst (Agent.exec a0 ins) ->
        h ∈ Agent.handlers a0 -> Agent.heap a0 !! h = Some c ->
        exists c', Agent.heap (fst (Agent.step a (Agent.settle_disconnect true))) !! h = Some c'
                   /\ is_done (self c') = true)
  /\ (forall h, h ∉ Agent.handlers a -> Agent.removeHandler h a = a).
Proof.
  intros Hd. simpl. rewrite Hd. unfold Agent.dispose_resume. simpl.
  split; [|split; [|split; [|split]]].
  - destruct (Agent.forEach_dispose (Agent.handlers a) (Agent.set_disposing n a)); eauto.
  - destruct (Agent.forEach_dispose (Agent.handlers a) (Agent.set_disposing n a)); reflexivity.
  - intros h c Hin Hl.
    destruct (forEach_dispose_tracked_done (Agent.handlers a) (Agent.set_disposing n a) h)
      as (c' & Hl' & Hdone); [exists c; auto|].
    destruct (Agent.forEach_dispose (Agent.handlers a) (Agent.set_disposing n a)); simpl in *.
    exists c'. auto.
  - intros a0 ins h c -> Hin Hl.
    assert (tracked h (fst (Agent.exec a0 ins))) as Ht
      by (apply exec_tracked; exists c; auto).
    destruct (forEach_dispose_tracked_done (Agent.handlers (fst (Agent.exec a0 ins)))
                (Agent.set_disposing n (fst (Agent.exec a0 ins))) h Ht)
      as (c' & Hl' & Hdone).
    destruct (Agent.forEach_dispose (Agent.handlers (fst (Agent.exec a0 ins)))
                (Agent.set_disposing n (fst (Agent.exec a0 ins)))); simpl in *.
    exists c'. auto.
  - intros h. apply removeHandler_absent.
Qed.

(** C8.  [handleMessage] does nothing for an event that arrives while the
    model is not configured, that carries no message or no text, or whose
    message is flagged as AI-generated: the agent (registry, handler objects,
    suspended calls) is unchanged and no call on the transport is issued. *)
Theorem handleMessage_ignored (a : Agent.agent) (e : Event) (now : Z) (currentDate : string) :
  Agent.genAI a = None \/ Agent.model a = None \/ ev_message e = None
  \/ (exists m, ev_message e = Some m
                /\ (ai_generated m = true \/ text m = None \/ text m = Some "")) ->
  fst (Agent.step a (Agent.message_new e now currentDate)) = a
  /\ List.filter transport_write (snd (Agent.step a (Agent.message_new e now currentDate))) = [].
Proof.
  intros H. simpl. unfold Agent.handleMessage.
  destruct (Agent.genAI a) as [g|]; [|split; reflexivity].
  destruct (Agent.model a) as [md|]; [|split; reflexivity].
  destruct H as [H|[H|[H|(m & Hm & H)]]]; try discriminate.
  - rewrite H. split; reflexivity.
  - rewrite Hm. destruct (ai_generated m); [split; reflexivity|].
    destruct H as [H|[H|H]]; [discriminate | |]; rewrite H; split; reflexivity.
Qed.

(** ** Theorems: the error and cancellation paths of [run] *)

Lemma step_no_generate c i :
  before_request (pc c) = false ->
  before_request (pc (fst (step c i))) = false
  /\ List.filter is_generate (snd (step c i)) = [].
Proof.
  intros Hb. destruct c as [h k n].
  destruct i as [ | s | m | ok | ]; simpl in *.
  - destruct k; simpl in *; try discriminate; auto.
  - destruct k, s; simpl in *; try discriminate; auto; run_cases; auto.
  - run_cases; simpl; auto.
  - destruct n; simpl; auto. destruct ok; run_cases; auto.
  - run_cases; simpl; auto.
Qed.

Lemma exec_no_generate ins : forall c,
  before_request (pc c) = false -> List.filter is_generate (snd (exec c ins)) = [].
Proof.
  induction ins as [|i ins IH]; intros c Hb; simpl; [reflexivity|].
  destruct (step_no_generate c i Hb) as [Hb1 He1].
  destruct (step c i) as [c1 e1]; simpl in *.
  specialize (IH c1 Hb1). destruct (exec c1 ins) as [c2 e2]; simpl in *.
  now rewrite List.filter_app, He1, IH.
Qed.

Lemma catch_no_generate c e :
  in_try (pc c) = true ->
  before_request (pc (fst (step c (settle_run (Rejected e))))) = false
  /\ List.filter is_generate (snd (step c (settle_run (Rejected e)))) = [].
Proof.
  intros Hk. destruct c as [h k n]. simpl in *.
  destruct k; simpl in Hk; try discriminate; simpl; run_cases; simpl; auto.
Qed.

Lemma exec_catch_no_generate c e ins :
  in_try (pc c) = true ->
  List.filter is_generate (snd (exec c (settle_run (Rejected e) :: ins))) = [].
Proof.
  intros Hk. destruct (catch_no_generate c e Hk) as [Hb He].
  cbn [exec]. destruct (step c (settle_run (Rejected e))) as [c1 e1]; simpl in Hb, He.
  pose proof (exec_no_generate ins c1 Hb) as Hr.
  destruct (exec c1 ins) as [c2 e2]; simpl in *.
  now rewrite List.filter_app, He, Hr.
Qed.

(** The first step of the error path: not a cancellation, handler not done. *)
Lemma catch_enters_handleError (k : run_pc) (e : thrown) (h : handler) :
  in_try k = true -> is_AbortError e = false -> is_done h = false ->
  run_resume k (Rejected e) h
  = (h, AwaitErrorEvent e,
     [console_error "Error during generation:" e;
      sendEvent (ai_indicator_update AI_STATE_ERROR (cid (message h)) (id (message h)))]).
Proof.
  intros Hk Ha Hd.
  assert (run_catch e h
          = (h, AwaitErrorEvent e,
             [console_error "Error during generation:" e;
              sendEvent (ai_indicator_update AI_STATE_ERROR (cid (message h)) (id (message h)))]))
    as Hc by (unfold run_catch, handleError; now rewrite Ha, Hd).
  destruct k; simpl in Hk; try discriminate; simpl; exact Hc.
Qed.

(** The whole error path for a thrown value whose description can be read. *)
Lemma error_path_run (c : config) (e : thrown) (t m : string) :
  in_try (pc c) = true -> is_AbortError e = false -> is_done (self c) = false ->
  rewrite_args e = inr (t, m) ->
  exec c [settle_run (Rejected e); settle_run Fulfilled; settle_run Fulfilled]
  = (mkConfig (set_disposed (self c)) RunResolved (stop_pending c),
     [console_error "Error during generation:" e;
      sendEvent (ai_indicator_update AI_STATE_ERROR (cid (message (self c))) (id (message (self c))));
      partialUpdateMessage (id (message (self c))) t (Some m);
      off_stop; onDispose]).
Proof.
  intros Hk Ha Hd Hr. destruct c as [h k n]; simpl in *.
  rewrite (catch_enters_handleError k e h Hk Ha Hd). simpl. rewrite Hr. simpl.
  unfold dispose. rewrite Hd. simpl. reflexivity.
Qed.

(** C6, as amended.  When a promise awaited in the [try] block of [run]
    rejects (or [chunk.text()] throws) with a value that is not a
    cancellation and is an object whose [toString] can be called, and the
    handler is not done, [run] logs, emits the "error" indicator, then sets
    the message text to the error's description, then disposes, in that
    order, and resolves.  Whatever the thrown value, the provider is not
    asked for a stream again, then or later. *)
Theorem error_path (c : config) (e : error) (s : string) :
  in_try (pc c) = true -> is_done (self c) = false -> is_AbortError e = false ->
  err_toString e = Some s ->
  exec c [settle_run (Rejected e); settle_run Fulfilled; settle_run Fulfilled]
  = (mkConfig (set_disposed (self c)) RunResolved (stop_pending c),
     [console_error "Error during generation:" e;
      sendEvent (ai_indicator_update AI_STATE_ERROR (cid (message (self c))) (id (message (self c))));
      partialUpdateMessage (id (message (self c))) (error_text e) (Some s);
      off_stop; onDispose])
  /\ (forall f, pc c = AwaitNextChunk f ->
        exec c [settle_run (ChunkThrows e); settle_run Fulfilled; settle_run Fulfilled]
        = exec c [settle_run (Rejected e); settle_run Fulfilled; settle_run Fulfilled])
  /\ forall (e' : thrown) ins,
       List.filter is_generate (snd (exec c (settle_run (Rejected e') :: ins))) = [].
Proof.
  intros Hk Hd Ha Hs. split; [|split].
  - apply error_path_run; auto. simpl. now rewrite Hs.
  - intros f Hpc. destruct c as [h k n]; simpl in *. subst k. simpl.
    unfold run_chunk_throws. now rewrite Hd.
  - intros e' ins. now apply exec_catch_no_generate.
Qed.

(** C6, the claim as written fails: the provider's stream rejects with
    [null].  [run] logs and emits the error indicator; when that event is
    fulfilled, reading [error.message] throws, so the message text is not
    rewritten, and [run] disposes and rejects with the [TypeError]. *)
Lemma nullish_error_no_rewrite :
  is_AbortError thrown_null = false
  /\ exec sample_streaming [settle_run (Rejected thrown_null); settle_run Fulfilled]
     = (mkConfig (mkHandler "prompt" 5000 true (Some false) sample_message false)
          (RunRejected (TypeError "Cannot read properties of null (reading 'message')")) 0,
        [console_error "Error during generation:" thrown_null;
         sendEvent (ai_indicator_update AI_STATE_ERROR "messaging:general" "m1");
         off_stop; onDispose]).
Proof. split; reflexivity. Qed.

(** C3, as amended.  A failure of the initial "generating" event aborts the
    run: the provider is never asked for the stream, whatever happens
    afterwards, and the failure is handled by the [catch] block exactly as a
    failure at any other [await] of the [try] block.  For a cancellation
    error the "clear" event is sent and, once it is fulfilled, the handler is
    disposed.  For any other thrown value: if the handler is already done,
    the error is only logged and [run] resolves; otherwise the error
    indicator is sent, then the message text is set to the error's
    description (for a value whose description can be read), then the
    handler is disposed. *)
Theorem generating_failure_aborts (c : config) (e : thrown) :
  pc c = AwaitGeneratingEvent ->
  (forall ins, List.filter is_generate (snd (exec c (settle_run (Rejected e) :: ins))) = [])
  /\ (forall k, in_try k = true ->
        run_resume (pc c) (Rejected e) (self c) = run_resume k (Rejected e) (self c))
  /\ (is_AbortError e = true ->
      exec c [settle_run (Rejected e); settle_run Fulfilled]
      = (mkConfig (fst (dispose (self c))) RunResolved (stop_pending c),
         [console_log ["Generation was cancelled"];
          sendEvent (ai_indicator_clear (cid (message (self c))) (id (message (self c))))]
         ++ snd (dispose (self c))))
  /\ (is_AbortError e = false -> is_done (self c) = true ->
      step c (settle_run (Rejected e))
      = (mkConfig (self c) RunResolved (stop_pending c),
         [console_error "Error during generation:" e]))
  /\ (is_AbortError e = false -> is_done (self c) = false ->
      forall t m, rewrite_args e = inr (t, m) ->
      exec c [settle_run (Rejected e); settle_run Fulfilled; settle_run Fulfilled]
      = (mkConfig (set_disposed (self c)) RunResolved (stop_pending c),
         [console_error "Error during generation:" e;
          sendEvent (ai_indicator_update AI_STATE_ERROR
                       (cid (message (self c))) (id (message (self c))));
          partialUpdateMessage (id (message (self c))) t (Some m);
          off_stop; onDispose])).
Proof.
  intros Hpc. split; [|split; [|split; [|split]]].
  - intros ins. apply exec_catch_no_generate. now rewrite Hpc.
  - intros k Hk. rewrite Hpc. destruct k; simpl in Hk; try discriminate; reflexivity.
  - intros Ha. destruct c as [h k n]; simpl in *; subst k; simpl.
    unfold run_catch. rewrite Ha. simpl.
    unfold run_finally. destruct (dispose h) as [h' eff]. simpl. now rewrite app_nil_r.
  - intros Ha Hd. destruct c as [h k n]; simpl in *; subst k; simpl.
    unfold run_catch, handleError, run_finally, dispose. rewrite Ha, Hd. simpl.
    now rewrite Hd.
  - intros Ha Hd t m Hr. apply error_path_run; auto. now rewrite Hpc.
Qed.

(** C3, the claim as written fails: the "generating" event of a fresh
    handler rejects with a [TypeError]; the run goes through the error path
    to its end and [generateContentStream] is never called. *)
Lemma generating_failure_no_request :
  exec (init sample_message "prompt")
    [call_run; settle_run (Rejected sample_error); settle_run Fulfilled; settle_run Fulfilled]
  = (mkConfig (mkHandler "prompt" 0 true (Some false) sample_message false) RunResolved 0,
     [sendEvent (ai_indicator_update AI_STATE_GENERATING "messaging:general" "m1");
      console_error "Error during generation:" sample_error;
      sendEvent (ai_indicator_update AI_STATE_ERROR "messaging:general" "m1");
      partialUpdateMessage "m1" "fetch failed" (Some "TypeError: fetch failed");
      off_stop; onDispose])
  /\ List.filter is_generate
       (snd (exec (init sample_message "prompt")
               [call_run; settle_run (Rejected sample_error);
                settle_run Fulfilled; settle_run Fulfilled])) = [].
Proof. split; reflexivity. Qed.

(** C4, the code at the failing input.  Two chunks are flushed, a stop
    signal for the handler's own message is accepted and its [dispose] has
    set [is_done]; the provider ignores the abort and yields a third chunk.
    The loop breaks on [is_done] and falls through to the statements after
    it: one more [partialUpdateMessage] and a second "clear" event are
    issued. *)
Example stop_accepted_then_chunk :
  exec (init sample_message "prompt")
    [call_run; settle_run Fulfilled; settle_run Fulfilled;
     settle_run (Chunk "The " 2000); settle_run Fulfilled;
     settle_run (Chunk "summary " 4000); settle_run Fulfilled;
     stop_event (Some "m1"); settle_stop true]
  = (mkConfig (mkHandler "prompt" 4000 true (Some true) sample_message false)
       (AwaitNextChunk "The summary ") 0,
     [sendEvent (ai_indicator_update AI_STATE_GENERATING "messaging:general" "m1");
      generateContentStream "prompt";
      partialUpdateMessage "m1" "The " None;
      partialUpdateMessage "m1" "The summary " None;
      console_log ["Stop generating for message"; "m1"]; abort;
      sendEvent (ai_indicator_clear "messaging:general" "m1");
      off_stop; onDispose])
  /\ exec (mkConfig (mkHandler "prompt" 4000 true (Some true) sample_message false)
             (AwaitNextChunk "The summary ") 0)
       [settle_run (Chunk "is Y." 6000); settle_run Fulfilled; settle_run Fulfilled]
     = (mkConfig (mkHandler "prompt" 4000 true (Some true) sample_message false) RunResolved 0,
        [partialUpdateMessage "m1" "The summary " None;
         sendEvent (ai_indicator_clear "messaging:general" "m1")]).
Proof. split; reflexivity. Qed.

(** ** Theorems: the throttle *)


Lemma step_after_loop c i :
  before_loop_exit (pc c) = false ->
  before_loop_exit (pc (fst (step c i))) = false /\ loop_flush c i = None.
Proof.
  intros Hb. unfold loop_flush. destruct c as [h k n].
  destruct i as [ | s | m | ok | ]; simpl in *.
  - destruct k; simpl in *; try discriminate; auto.
  - destruct k, s; simpl in *; try discriminate; auto; run_cases; simpl; auto.
  - run_cases; simpl; destruct k; auto; discriminate.
  - destruct n; simpl; [destruct k; auto; discriminate|].
    destruct ok; run_cases; destruct k; auto; discriminate.
  - run_cases; simpl; destruct k; auto; discriminate.
Qed.













(** ** Theorems: accumulation *)

Lemma append_nil_r s : s +:+ "" = s.
Proof.
  induction s as [|a s IH]; [reflexivity|].
  change (String a (s +:+ "") = String a s). now rewrite IH.
Qed.

Lemma append_assoc s t u : (s +:+ t) +:+ u = s +:+ (t +:+ u).
Proof.
  induction s as [|a s IH]; [reflexivity|].
  change (String a ((s +:+ t) +:+ u) = String a (s +:+ (t +:+ u))). now rewrite IH.
Qed.

Lemma truthy_false s : truthy s = false -> s = "".
Proof.
  unfold truthy. intros H. apply negb_false_iff in H. now apply String.eqb_eq in H.
Qed.

Lemma extends_refl s : extends s s.
Proof. exists "". now rewrite append_nil_r. Qed.

Lemma extends_app p f t : extends p f -> extends p (f +:+ t).
Proof. intros [u ->]. exists (u +:+ t). apply append_assoc. Qed.

Lemma extends_nil s : extends "" s.
Proof. now exists s. Qed.

Lemma cur_full_None k : cur_full k = None <-> before_loop_exit k = false.
Proof. destruct k; simpl; split; congruence. Qed.

(** A step issues at most one accumulated-text update; its text extends
    every admissible bound and is the bound from then on. *)
Lemma step_chain c i p :
  chain_bound (pc c) p ->
  match update_texts (snd (step c i)) with
  | [] => chain_bound (pc (fst (step c i))) p
  | [t] => extends p t /\ chain_bound (pc (fst (step c i))) t
  | _ => False
  end.
Proof.
  destruct c as [h k n]. unfold chain_bound.
  destruct i as [ | s | m | ok | ]; simpl.
  - destruct k; simpl; auto.
  - destruct k, s; simpl; auto; run_cases;
      intuition (subst; eauto using extends_refl, extends_app, extends_nil).
  - run_cases; auto.
  - destruct n; simpl; auto. destruct ok; run_cases; auto.
  - run_cases; auto.
Qed.

Lemma exec_chain ins : forall c p,
  chain_bound (pc c) p -> chain_from p (update_texts (snd (exec c ins))).
Proof.
  induction ins as [|i ins IH]; intros c p Hb; simpl; [exact I|].
  pose proof (step_chain c i p Hb) as Hs.
  destruct (step c i) as [c1 e1]; simpl in Hs.
  pose proof (IH c1) as IH1.
  destruct (exec c1 ins) as [c2 e2]; simpl in *.
  unfold update_texts in *. rewrite omap_app.
  destruct (omap update_text e1) as [|t [|t' l]]; simpl.
  - now apply IH1.
  - destruct Hs as [He Hb1]. split; [exact He | now apply IH1].
  - destruct Hs.
Qed.

Lemma step_after_loop_texts c i :
  before_loop_exit (pc c) = false -> update_texts (snd (step c i)) = [].
Proof.
  intros Hb. destruct c as [h k n].
  destruct i as [ | s | m | ok | ]; simpl in *.
  - destruct k; simpl in *; try discriminate; auto.
  - destruct k, s; simpl in *; try discriminate; auto; run_cases; auto.
  - run_cases; auto.
  - destruct n; simpl; auto. destruct ok; run_cases; auto.
  - run_cases; auto.
Qed.

Lemma exec_after_loop ins : forall c,
  before_loop_exit (pc c) = false ->
  update_texts (snd (exec c ins)) = []
  /\ before_loop_exit (pc (fst (exec c ins))) = false.
Proof.
  induction ins as [|i ins IH]; intros c Hb; simpl; [auto|].
  pose proof (step_after_loop_texts c i Hb) as Ht.
  destruct (step_after_loop c i Hb) as [Hb1 _].
  destruct (step c i) as [c1 e1]; simpl in *.
  destruct (IH c1 Hb1) as [Ht2 Hb2].
  destruct (exec c1 ins) as [c2 e2]; simpl in *.
  unfold update_texts in *. rewrite omap_app, Ht, Ht2. auto.
Qed.

Lemma concat_texts_app l1 l2 :
  concat_texts (l1 ++ l2) = concat_texts l1 +:+ concat_texts l2.
Proof.
  induction l1 as [|x l1 IH]; simpl; [reflexivity|].
  now rewrite IH, append_assoc.
Qed.

Lemma appended_cons c i ins :
  appended c (i :: ins) = appended c [i] ++ appended (fst (step c i)) ins.
Proof.
  cbn [appended].
  destruct (pc c); try reflexivity.
  destruct i as [ | s | m | ok | ]; try reflexivity.
  destruct s; try reflexivity.
  destruct (is_done (self c)); reflexivity.
Qed.

(** One step of the loop: [fullResponse] grows by the chunk text the step
    appended, or the loop is left. *)
Lemma step_full c i f0 :
  cur_full (pc c) = Some f0 ->
  cur_full (pc (fst (step c i))) = None
  \/ cur_full (pc (fst (step c i))) = Some (f0 +:+ concat_texts (appended c [i])).
Proof.
  destruct c as [h k n].
  destruct i as [ | s | m | ok | ]; simpl.
  - destruct k; simpl; intros [= <-]; rewrite ?append_nil_r; auto.
  - destruct k, s; simpl; try discriminate; intros [= <-]; rewrite ?append_nil_r; auto;
      run_cases; rewrite ?append_nil_r; auto.
    match goal with H : truthy _ = false |- _ => apply truthy_false in H; subst end.
    rewrite append_nil_r. auto.
  - run_cases; destruct k; simpl; try discriminate; intros [= <-];
      rewrite ?append_nil_r; auto.
  - destruct n; [|destruct ok]; run_cases; destruct k; simpl; try discriminate;
      intros [= <-]; rewrite ?append_nil_r; auto.
  - run_cases; destruct k; simpl; try discriminate; intros [= <-];
      rewrite ?append_nil_r; auto.
Qed.

Lemma exec_full ins : forall c f0 f,
  cur_full (pc c) = Some f0 ->
  pc (fst (exec c ins)) = AwaitNextChunk f ->
  f = f0 +:+ concat_texts (appended c ins).
Proof.
  induction ins as [|i ins IH]; intros c f0 f Hc Hpc.
  - simpl in *. rewrite Hpc in Hc. simpl in Hc. injection Hc as <-.
    now rewrite append_nil_r.
  - rewrite appended_cons, concat_texts_app, <- append_assoc.
    cbn [exec] in Hpc.
    destruct (step_full c i f0 Hc) as [Hn|Hs].
    + apply cur_full_None in Hn.
      destruct (step c i) as [c1 e1]; simpl in *.
      destruct (exec_after_loop ins c1 Hn) as [_ Hb].
      destruct (exec c1 ins) as [c2 e2]; simpl in *.
      rewrite Hpc in Hb. discriminate.
    + destruct (step c i) as [c1 e1]; simpl in *.
      apply (IH c1); [exact Hs|].
      destruct (exec c1 ins) as [c2 e2]; simpl in *. exact Hpc.
Qed.

(** C1.  Over every run of a handler built by the dispatcher, whatever the
    chunks, clock readings and interleaved stimuli, the texts of the
    accumulated-text updates form a chain: each extends the one sent before
    it.  Whenever the loop awaits a chunk, [fullResponse] is the
    concatenation of the chunk texts received while [is_done] was false; if
    the stream ends there, exactly one update is issued, with that text and
    whatever [last_update_time] is, and no accumulated-text update follows
    it. *)
Theorem monotonic_accumulation (m : MessageResponse) (p : string) (ins : list input) :
  chain_from "" (update_texts (snd (exec (init m p) ins)))
  /\ forall f, pc (fst (exec (init m p) ins)) = AwaitNextChunk f ->
       f = concat_texts (appended (init m p) ins)
       /\ step (fst (exec (init m p) ins)) (settle_run StreamEnd)
          = (mkConfig (self (fst (exec (init m p) ins))) AwaitFinalUpdate
               (stop_pending (fst (exec (init m p) ins))),
             [partialUpdateMessage (id (message (self (fst (exec (init m p) ins))))) f None])
       /\ forall ins',
            update_texts
              (snd (exec (fst (step (fst (exec (init m p) ins)) (settle_run StreamEnd))) ins'))
            = [].
Proof.
  split.
  - apply exec_chain. unfold chain_bound. simpl. apply extends_refl.
  - intros f Hpc. split; [|split].
    + apply (exec_full ins (init m p) "" f); [reflexivity | exact Hpc].
    + destruct (fst (exec (init m p) ins)) as [h k n]. simpl in *. subst k. reflexivity.
    + intros ins'. apply exec_after_loop.
      destruct (fst (exec (init m p) ins)) as [h k n]. simpl in *. subst k. reflexivity.
Qed.

(** ** The theorems at concrete inputs *)

(** Scenario A: the loop awaits after the third chunk with the whole text
    accumulated, which is what the final update then carries. *)
Lemma monotonic_accumulation_scenario_A :
  pc (fst (exec (init sample_message "prompt") scenario_A)) = AwaitNextChunk "The summary is Y."
  /\ "The summary is Y." = concat_texts (appended (init sample_message "prompt") scenario_A)
  /\ snd (step (fst (exec (init sample_message "prompt") scenario_A)) (settle_run StreamEnd))
     = [partialUpdateMessage "m1" "The summary is Y." None].
Proof.
  split; [reflexivity|].
  destruct (proj2 (monotonic_accumulation sample_message "prompt" scenario_A)
              "The summary is Y." eq_refl) as (Hf & Hs & _).
  split; [exact Hf|]. rewrite Hs. reflexivity.
Defined.

Lemma dispose_idempotent_fresh :
  is_done (fst (new sample_message)) = false
  /\ dispose (fst (new sample_message))
     = (set_disposed (fst (new sample_message)), [off_stop; onDispose])
  /\ dispose (set_disposed (fst (new sample_message)))
     = (set_disposed (fst (new sample_message)), []).
Proof.
  split; [reflexivity|]. split.
  - apply (proj1 dispose_idempotent (fst (new sample_message))). reflexivity.
  - apply (proj1 (proj2 dispose_idempotent)). reflexivity.
Defined.

Lemma generating_failure_aborts_fresh :
  pc (fst (step (init sample_message "prompt") call_run)) = AwaitGeneratingEvent
  /\ List.filter is_generate
       (snd (exec (fst (step (init sample_message "prompt") call_run))
               [settle_run (Rejected sample_error); settle_run Fulfilled;
                settle_run Fulfilled; settle_run (Chunk "The " 2000)])) = [].
Proof.
  split; [reflexivity|].
  apply (proj1 (generating_failure_aborts
                  (fst (step (init sample_message "prompt") call_run)) sample_error eq_refl)).
Defined.


Lemma error_path_sample :
  in_try (pc sample_streaming) = true
  /\ is_AbortError sample_error = false
  /\ snd (exec sample_streaming
            [settle_run (Rejected sample_error); settle_run Fulfilled; settle_run Fulfilled])
     = [console_error "Error during generation:" sample_error;
        sendEvent (ai_indicator_update AI_STATE_ERROR "messaging:general" "m1");
        partialUpdateMessage "m1" "fetch failed" (Some "TypeError: fetch failed");
        off_stop; onDispose].
Proof.
  split; [reflexivity|]. split; [reflexivity|].
  rewrite (proj1 (error_path sample_streaming sample_error "TypeError: fetch failed"
                    eq_refl eq_refl eq_refl eq_refl)).
  reflexivity.
Defined.

Lemma stop_signal_scoped_other_message :
  Some "m2" <> Some (id (message (self sample_streaming)))
  /\ step sample_streaming (stop_event (Some "m2")) = (sample_streaming, []).
Proof.
  assert (Some "m2" <> Some (id (message (self sample_streaming)))) as Hne by discriminate.
  split; [exact Hne|].
  apply (stop_signal_scoped sample_streaming (Some "m2") (or_intror Hne)).
Defined.

Lemma handleMessage_ignored_ai_authored :
  ai_generated (mkMessage (Some "The summary is Y.") true None) = true
  /\ fst (Agent.step sample_agent
            (Agent.message_new sample_ai_event 1700000000300 "November 14, 2023"))
     = sample_agent.
Proof.
  split; [reflexivity|].
  apply (handleMessage_ignored sample_agent sample_ai_event 1700000000300 "November 14, 2023").
  right. right. right. eexists. split; [reflexivity|]. left. reflexivity.
Defined.

(** Scenario D: two handlers in flight, the agent's [dispose] completes. *)
Lemma agent_dispose_completes_scenario_D :
  Agent.disposing (fst (Agent.exec sample_agent scenario_D)) = 1%nat
  /\ Agent.handlers (fst (Agent.exec sample_agent scenario_D)) = [0%nat; 1%nat]
  /\ Agent.handlers
       (fst (Agent.step (fst (Agent.exec sample_agent scenario_D))
               (Agent.settle_disconnect true))) = [].
Proof.
  split; [reflexivity|]. split; [reflexivity|].
  apply (agent_dispose_completes (fst (Agent.exec sample_agent scenario_D)) 0 eq_refl).
Defined.

Lemma handleError_after_dispose_sample :
  is_done (self sample_disposed) = true
  /\ handleError sample_error (self sample_disposed) = (self sample_disposed, None, []).
Proof.
  split; [reflexivity|].
  apply (handleError_after_dispose sample_error (self sample_disposed) eq_refl).
Defined.

(** Scenario D with a handler that disposes itself while the agent's
    [dispose] awaits [disconnectUser]: its provider call fails, it takes the
    error path and leaves the registry; when [dispose] completes, both
    handlers are done and the registry is empty. *)
Example scenario_D_self_disposed :
  Agent.handlers
    (fst (Agent.exec sample_agent
            (scenario_D ++ [Agent.settle_handler_run 0 (Rejected sample_error);
                            Agent.settle_handler_run 0 Fulfilled;
                            Agent.settle_handler_run 0 Fulfilled]))) = [1%nat]
  /\ (is_done ∘ self) <$>
       Agent.heap
         (fst (Agent.exec sample_agent
                 (scenario_D ++ [Agent.settle_handler_run 0 (Rejected sample_error);
                                 Agent.settle_handler_run 0 Fulfilled;
                                 Agent.settle_handler_run 0 Fulfilled;
                                 Agent.settle_disconnect true]))) = [true; true]
  /\ Agent.handlers
       (fst (Agent.exec sample_agent
               (scenario_D ++ [Agent.settle_handler_run 0 (Rejected sample_error);
                               Agent.settle_handler_run 0 Fulfilled;
                               Agent.settle_handler_run 0 Fulfilled;
                               Agent.settle_disconnect true]))) = [].
Proof. repeat split; reflexivity. Qed.

(** * Further properties of the handler *)

(** Case analysis on a handler given by its fields. *)
Ltac hcases :=
  unfold step, run_resume in *; simpl in *;
  unfold run_chunk, run_chunk_throws, run_after_loop, run_catch, handleError, run_finally,
    run_start, handleStopGenerating, handleStopGenerating_resume, dispose, clear_of,
    set_disposed, set_abortController, set_last_update_time in *;
  simpl in *;
  repeat (match goal with
          | |- context [rewrite_args ?e] => destruct (rewrite_args e) as [?|[? ?]] eqn:?
          | |- context [if ?b then _ else _] => destruct b eqn:?
          | |- context [match ?x with Some _ => _ | None => _ end] => is_var x; destruct x
          end; simpl in *).

Ltac step_cases c i :=
  let mt := fresh "mt" in let lt := fresh "lt" in let d := fresh "d" in
  let ac := fresh "ac" in let msg := fresh "msg" in let ls := fresh "ls" in
  let k := fresh "k" in let n := fresh "n" in
  let s := fresh "s" in let m := fresh "m" in let ok := fresh "ok" in
  destruct c as [[mt lt d ac msg ls] k n];
  destruct i as [ | s | m | ok | ];
  [ destruct k | destruct k, s | | destruct n; [|destruct ok] | ];
  hcases.


(** An invariant of [step] holds along [exec]. *)
Lemma exec_invariant (P : config -> Prop) :
  (forall c i, P c -> P (fst (step c i))) ->
  forall ins c, P c -> P (fst (exec c ins)).
Proof.
  intros Hstep. induction ins as [|i ins IH]; intros c Hc; [exact Hc|]. simpl.
  pose proof (Hstep c i Hc) as H1.
  destruct (step c i) as [c1 e1]; simpl in *.
  specialize (IH c1 H1). now destruct (exec c1 ins).
Qed.

Lemma step_lifecycle c i : lifecycle_ok c -> lifecycle_ok (fst (step c i)).
Proof.
  unfold lifecycle_ok. intros [Hl Hs].
  step_cases c i; subst; simpl in *; split; auto; try discriminate;
    try (intros _; auto; fail).
Qed.

(** X1.  Over every run of a handler built by the dispatcher, the stop
    listener is registered exactly while the handler is not done, and once
    the promise of [run] has settled (resolved or rejected) the handler is
    done: the [finally] block has disposed it on every path. *)
Theorem run_always_disposes (m : MessageResponse) (p : string) (ins : list input) :
  listening (self (fst (exec (init m p) ins)))
  = negb (is_done (self (fst (exec (init m p) ins))))
  /\ (settled (pc (fst (exec (init m p) ins))) = true ->
      is_done (self (fst (exec (init m p) ins))) = true).
Proof.
  apply (exec_invariant lifecycle_ok step_lifecycle ins (init m p)).
  split; [reflexivity | discriminate].
Qed.

Lemma step_inert c i :
  is_done (self c) = true -> settled (pc c) = true ->
  snd (step c i) = []
  /\ self (fst (step c i)) = self c /\ pc (fst (step c i)) = pc c.
Proof.
  intros Hd Hs. step_cases c i; subst; try discriminate; auto.
Qed.

Lemma exec_inert ins : forall c,
  is_done (self c) = true -> settled (pc c) = true ->
  snd (exec c ins) = []
  /\ self (fst (exec c ins)) = self c /\ pc (fst (exec c ins)) = pc c.
Proof.
  induction ins as [|i ins IH]; intros c Hd Hs; simpl; [auto|].
  destruct (step_inert c i Hd Hs) as (He & Hself & Hpc).
  destruct (step c i) as [c1 e1]; simpl in *.
  rewrite <- Hself in Hd. rewrite <- Hpc in Hs.
  destruct (IH c1 Hd Hs) as (He2 & Hself2 & Hpc2).
  destruct (exec c1 ins) as [c2 e2]; simpl in *.
  subst. repeat split; congruence.
Qed.

(** X2.  A handler whose [run] has settled and that is done is inert:
    whatever is delivered to it afterwards (settled promises, stop signals
    for any message, further [dispose] calls), it issues no call and its
    fields do not change. *)
Theorem finished_handler_inert (c : config) (ins : list input) :
  is_done (self c) = true -> settled (pc c) = true ->
  snd (exec c ins) = []
  /\ self (fst (exec c ins)) = self c /\ pc (fst (exec c ins)) = pc c.
Proof. apply exec_inert. Qed.

Lemma finished_handler_inert_sample :
  is_done (self (mkConfig (self sample_disposed) RunResolved 1)) = true
  /\ snd (exec (mkConfig (self sample_disposed) RunResolved 1)
            [stop_event (Some "m1"); settle_stop true; call_dispose;
             settle_run (Chunk "The " 9000); settle_run Fulfilled]) = [].
Proof.
  split; [reflexivity|].
  apply (finished_handler_inert (mkConfig (self sample_disposed) RunResolved 1)
           [stop_event (Some "m1"); settle_stop true; call_dispose;
            settle_run (Chunk "The " 9000); settle_run Fulfilled] eq_refl eq_refl).
Defined.

(** X3.  When a promise awaited in the [try] block rejects with an
    [AbortError], [run] logs the cancellation and emits the "clear" event,
    whether or not the handler is already done; once that event is
    fulfilled it disposes and resolves.  Neither the error indicator nor a
    rewrite of the message text is issued. *)
Theorem cancellation_path (c : config) (e : thrown) :
  in_try (pc c) = true -> is_AbortError e = true ->
  exec c [settle_run (Rejected e); settle_run Fulfilled]
  = (mkConfig (fst (dispose (self c))) RunResolved (stop_pending c),
     [console_log ["Generation was cancelled"];
      sendEvent (ai_indicator_clear (cid (message (self c))) (id (message (self c))))]
     ++ snd (dispose (self c))).
Proof.
  intros Hk Ha. destruct c as [h k n]; simpl in *.
  assert (run_resume k (Rejected e) h
          = (h, AwaitCancelClear, [console_log ["Generation was cancelled"]; clear_of h])) as ->.
  { assert (run_catch e h
            = (h, AwaitCancelClear, [console_log ["Generation was cancelled"]; clear_of h]))
      as Hc by (unfold run_catch; now rewrite Ha).
    destruct k; simpl in Hk; try discriminate; simpl; exact Hc. }
  simpl. unfold run_finally. destruct (dispose h) as [h' eff]. simpl.
  now rewrite app_nil_r.
Qed.

Lemma cancellation_path_sample :
  in_try (pc sample_streaming) = true
  /\ snd (exec sample_streaming
            [settle_run (Rejected (mkError true "AbortError" None (Some "AbortError")));
             settle_run Fulfilled])
     = [console_log ["Generation was cancelled"];
        sendEvent (ai_indicator_clear "messaging:general" "m1"); off_stop; onDispose].
Proof.
  split; [reflexivity|].
  rewrite (cancellation_path sample_streaming (mkError true "AbortError" None (Some "AbortError"))
             eq_refl eq_refl).
  reflexivity.
Defined.

(** X4.  When the stream ends while the loop awaits a chunk and the two
    transport calls that follow are fulfilled, [run] issues the final update
    with [fullResponse], then the "clear" event, then disposes and resolves,
    in that order. *)
Theorem normal_completion (c : config) (f : string) :
  pc c = AwaitNextChunk f ->
  exec c [settle_run StreamEnd; settle_run Fulfilled; settle_run Fulfilled]
  = (mkConfig (fst (dispose (self c))) RunResolved (stop_pending c),
     [partialUpdateMessage (id (message (self c))) f None;
      sendEvent (ai_indicator_clear (cid (message (self c))) (id (message (self c))))]
     ++ snd (dispose (self c))).
Proof.
  intros Hk. destruct c as [h k n]; simpl in *. subst k. simpl.
  unfold run_finally. destruct (dispose h) as [h' eff]. simpl.
  now rewrite app_nil_r.
Qed.

Lemma normal_completion_scenario_A :
  pc (fst (exec (init sample_message "prompt") scenario_A)) = AwaitNextChunk "The summary is Y."
  /\ snd (exec (fst (exec (init sample_message "prompt") scenario_A))
            [settle_run StreamEnd; settle_run Fulfilled; settle_run Fulfilled])
     = [partialUpdateMessage "m1" "The summary is Y." None;
        sendEvent (ai_indicator_clear "messaging:general" "m1"); off_stop; onDispose].
Proof.
  split; [reflexivity|].
  rewrite (normal_completion (fst (exec (init sample_message "prompt") scenario_A))
             "The summary is Y." eq_refl).
  reflexivity.
Defined.

(** X5.  A stop signal for the handler's own message, on a handler that is
    not done: the callback logs, aborts the controller if [run] has created
    one (no abort call otherwise), and emits the "clear" event; when that
    event is fulfilled the handler is disposed, when it is rejected the
    handler is left not done and still listening. *)
Theorem own_stop_signal_disposes (c : config) :
  is_done (self c) = false ->
  exec c [stop_event (Some (id (message (self c)))); settle_stop true]
  = (mkConfig
       (set_disposed
          (match abortController (self c) with
           | Some _ => set_abortController (Some true) (self c)
           | None => self c
           end))
       (pc c) (stop_pending c),
     console_log ["Stop generating for message"; id (message (self c))]
     :: (match abortController (self c) with Some _ => [abort] | None => [] end)
     ++ [sendEvent (ai_indicator_clear (cid (message (self c))) (id (message (self c))));
         off_stop; onDispose])
  /\ is_done (self (fst (exec c [stop_event (Some (id (message (self c))));
                                 settle_stop false]))) = false
  /\ listening (self (fst (exec c [stop_event (Some (id (message (self c))));
                                   settle_stop false]))) = listening (self c).
Proof.
  intros Hd. destruct c as [[mt lt d ac msg ls] k n]. simpl in Hd. subst d.
  simpl. unfold handleStopGenerating. simpl.
  rewrite bool_decide_eq_true_2 by reflexivity. simpl.
  destruct ac; simpl; auto.
Qed.

Lemma own_stop_signal_disposes_sample :
  is_done (self sample_streaming) = false
  /\ snd (exec sample_streaming [stop_event (Some "m1"); settle_stop true])
     = [console_log ["Stop generating for message"; "m1"]; abort;
        sendEvent (ai_indicator_clear "messaging:general" "m1"); off_stop; onDispose].
Proof.
  split; [reflexivity|].
  change (Some "m1") with (Some (id (message (self sample_streaming)))).
  rewrite (proj1 (own_stop_signal_disposes sample_streaming eq_refl)). reflexivity.
Defined.

(** X6.  The promise of [run] rejects only in the [catch] block or in
    [handleError]: a step takes an unsettled [run] to [RunRejected e]
    exactly when [run] is suspended on a transport call made there and the
    call is rejected with [e], or when the error event of [handleError] is
    fulfilled and the thrown value cannot be described ([null],
    [undefined], no callable [toString]), [e] being the [TypeError] this
    raises.  A rejected promise or a throwing chunk inside the [try] block
    does not by itself reject [run]. *)
Theorem run_rejects_only_in_recovery (c : config) (i : input) (e : thrown) :
  settled (pc c) = false ->
  (pc (fst (step c i)) = RunRejected e
   <-> (in_recovery (pc c) = true /\ i = settle_run (Rejected e))
       \/ (exists e0 te, pc c = AwaitErrorEvent e0 /\ i = settle_run Fulfilled
                         /\ rewrite_args e0 = inl te /\ e = thrown_value te)).
Proof.
  intros Hs. split.
  - step_cases c i; subst; try discriminate; intros H; try discriminate;
      try (subst; simpl in *; discriminate);
      injection H as <-; first [left; auto; fail | right; eauto 10].
  - intros [[Hr ->] | (e0 & te & Hpc & -> & Hre & ->)]; destruct c as [h k n]; simpl in *.
    + destruct k; simpl in Hr; try discriminate; simpl;
        unfold run_finally; destruct (dispose h); reflexivity.
    + subst k. simpl. rewrite Hre. unfold run_finally. destruct (dispose h); reflexivity.
Qed.

Lemma run_rejects_only_in_recovery_sample :
  settled (pc (mkConfig (self sample_streaming) (AwaitErrorEvent thrown_undefined) 0)) = false
  /\ pc (fst (step (mkConfig (self sample_streaming) (AwaitErrorEvent thrown_undefined) 0)
               (settle_run Fulfilled)))
     = RunRejected (TypeError "Cannot read properties of undefined (reading 'message')").
Proof.
  split; [reflexivity|].
  apply (run_rejects_only_in_recovery
           (mkConfig (self sample_streaming) (AwaitErrorEvent thrown_undefined) 0)
           (settle_run Fulfilled)
           (TypeError "Cannot read properties of undefined (reading 'message')") eq_refl).
  right. eexists _, _. repeat split; reflexivity.
Defined.

Lemma step_done_quiet c i :
  is_done (self c) = true ->
  loop_flush c i = None /\ appended c [i] = []
  /\ ((update_texts (snd (step c i)) = []
       /\ (cur_full (pc (fst (step c i))) = cur_full (pc c)
           \/ cur_full (pc (fst (step c i))) = None))
      \/ (exists t, update_texts (snd (step c i)) = [t]
                    /\ cur_full (pc c) = Some t
                    /\ cur_full (pc (fst (step c i))) = None)).
Proof.
  intros Hd. unfold loop_flush.
  step_cases c i; subst; try discriminate; repeat split; auto;
    try (destruct k; reflexivity); eauto.
Qed.

Lemma exec_done_quiet ins : forall c,
  is_done (self c) = true ->
  flush_times c ins = [] /\ appended c ins = []
  /\ (length (update_texts (snd (exec c ins))) <= 1)%nat
  /\ (forall t, t ∈ update_texts (snd (exec c ins)) -> cur_full (pc c) = Some t).
Proof.
  induction ins as [|i ins IH]; intros c Hd.
  - simpl. repeat split; auto. intros t Ht. inversion Ht.
  - rewrite appended_cons. cbn [flush_times exec].
    destruct (step_done_quiet c i Hd) as (Hf & Ha & Hu).
    pose proof (step_done_stable c i Hd) as Hd1.
    rewrite Hf, Ha.
    destruct (step c i) as [c1 e1]; simpl in *.
    destruct (IH c1 Hd1) as (IHf & IHa & IHl & IHt).
    pose proof (exec_after_loop ins c1) as Hdead.
    destruct (exec c1 ins) as [c2 e2]; simpl in *.
    unfold update_texts in *. rewrite omap_app.
    split; [exact IHf|]. split; [exact IHa|].
    destruct Hu as [[He [Hc|Hc]] | (t & He & Hc & Hn)]; rewrite He; simpl.
    + split; [exact IHl|]. intros t Ht. rewrite <- Hc. now apply IHt.
    + apply cur_full_None in Hc. destruct (Hdead Hc) as [-> _]. simpl.
      split; [lia|]. intros t Ht. inversion Ht.
    + apply cur_full_None in Hn. destruct (Hdead Hn) as [-> _]. simpl.
      split; [lia|]. intros t' Ht. apply list_elem_of_singleton in Ht. now subst.
Qed.

(** X7.  Once a handler is done, its loop appends no further chunk text and
    issues no throttled update, whatever the provider still delivers; the
    only accumulated-text update it can still issue is a single one, and its
    text is the value [fullResponse] had when the handler became done. *)
Theorem done_handler_appends_nothing (c : config) (ins : list input) :
  is_done (self c) = true ->
  flush_times c ins = [] /\ appended c ins = []
  /\ (length (update_texts (snd (exec c ins))) <= 1)%nat
  /\ (forall t, t ∈ update_texts (snd (exec c ins)) -> cur_full (pc c) = Some t).
Proof. apply exec_done_quiet. Qed.

Lemma done_handler_appends_nothing_sample :
  is_done (self sample_disposed) = true
  /\ appended sample_disposed
       [settle_run (Chunk "summary " 9000); settle_run Fulfilled;
        settle_run (Chunk "is Y." 12000)] = [].
Proof.
  split; [reflexivity|].
  apply (done_handler_appends_nothing sample_disposed
           [settle_run (Chunk "summary " 9000); settle_run Fulfilled;
            settle_run (Chunk "is Y." 12000)] eq_refl).
Defined.





Lemma step_generate_once c i :
  (List.filter is_generate (snd (step c i)) = []
   /\ message_text (self (fst (step c i))) = message_text (self c))
  \/ (List.filter is_generate (snd (step c i)) = [generateContentStream (message_text (self c))]
      /\ before_request (pc (fst (step c i))) = false).
Proof. step_cases c i; auto. Qed.

Lemma exec_generate_once ins : forall c,
  List.filter is_generate (snd (exec c ins)) = []
  \/ List.filter is_generate (snd (exec c ins)) = [generateContentStream (message_text (self c))].
Proof.
  induction ins as [|i ins IH]; intros c; simpl; [now left|].
  destruct (step_generate_once c i) as [[He Hm]|[He Hb]];
    destruct (step c i) as [c1 e1]; simpl in *.
  - specialize (IH c1). destruct (exec c1 ins) as [c2 e2]; simpl in *.
    rewrite List.filter_app, He, Hm in *. exact IH.
  - pose proof (exec_no_generate ins c1 Hb) as Hn.
    destruct (exec c1 ins) as [c2 e2]; simpl in *.
    rewrite List.filter_app, He, Hn. now right.
Qed.

(** X9.  Over every run of a handler, the provider is asked for a stream at
    most once, and with the prompt that [setPrompt] stored. *)
Theorem generation_requested_at_most_once (m : MessageResponse) (p : string) (ins : list input) :
  List.filter is_generate (snd (exec (init m p) ins)) = []
  \/ List.filter is_generate (snd (exec (init m p) ins)) = [generateContentStream p].
Proof. exact (exec_generate_once ins (init m p)). Qed.

Lemma step_own_message c i :
  forallb (own_message (message (self c))) (snd (step c i)) = true
  /\ message (self (fst (step c i))) = message (self c).
Proof. step_cases c i; rewrite ?String.eqb_refl; auto. Qed.

Lemma exec_own_message ins : forall c,
  forallb (own_message (message (self c))) (snd (exec c ins)) = true.
Proof.
  induction ins as [|i ins IH]; intros c; simpl; [reflexivity|].
  destruct (step_own_message c i) as [He Hm].
  destruct (step c i) as [c1 e1]; simpl in *.
  specialize (IH c1). destruct (exec c1 ins) as [c2 e2]; simpl in *.
  rewrite forallb_app, He. rewrite Hm in IH. now rewrite IH.
Qed.

(** X10.  Over every run, every event a handler sends carries the [cid] and
    [id] of the message it was built for and every update it issues
    addresses that message's [id]: a handler writes to no other message. *)
Theorem handler_writes_own_message (m : MessageResponse) (p : string) (ins : list input) :
  forallb (own_message m) (snd (exec (init m p) ins)) = true.
Proof. exact (exec_own_message ins (init m p)). Qed.

Lemma step_abort_needs_stop c i :
  (length (List.filter is_abort (snd (step c i)))
   <= if is_own_stop (message (self c)) i then 1 else 0)%nat.
Proof.
  destruct c as [h k n]. destruct i as [ | s | m | ok | ]; simpl.
  - destruct k; simpl; lia.
  - destruct k, s; simpl; try lia; run_cases; lia.
  - unfold handleStopGenerating.
    destruct (is_done h); simpl; [lia|].
    destruct (bool_decide (m = Some (id (message h)))) eqn:Hb; simpl; [|lia].
    apply bool_decide_eq_true_1 in Hb. subst m. rewrite String.eqb_refl.
    destruct (abortController h); simpl; lia.
  - destruct n; simpl; [lia|]. destruct ok; run_cases; lia.
  - run_cases; lia.
Qed.

Lemma exec_abort_needs_stop ins : forall c,
  (length (List.filter is_abort (snd (exec c ins)))
   <= length (List.filter (is_own_stop (message (self c))) ins))%nat.
Proof.
  induction ins as [|i ins IH]; intros c; simpl; [lia|].
  pose proof (step_abort_needs_stop c i) as Hs.
  destruct (step_own_message c i) as [_ Hm].
  destruct (step c i) as [c1 e1]; simpl in *.
  specialize (IH c1). rewrite Hm in IH.
  destruct (exec c1 ins) as [c2 e2]; simpl in *.
  rewrite List.filter_app, length_app.
  destruct (is_own_stop (message (self c)) i); simpl; lia.
Qed.

(** X11.  The abort controller is only ever aborted by a stop signal for the
    handler's own message: over every run, the number of [abort] calls is at
    most the number of such signals delivered, so a run that receives none
    never aborts. *)
Theorem abort_only_on_own_stop (m : MessageResponse) (p : string) (ins : list input) :
  (length (List.filter is_abort (snd (exec (init m p) ins)))
   <= length (List.filter (is_own_stop m) ins))%nat.
Proof. exact (exec_abort_needs_stop ins (init m p)). Qed.

(** * Further properties of the agent *)

Lemma removeHandler_twice h a :
  Agent.removeHandler h (Agent.removeHandler h a) = Agent.removeHandler h a.
Proof. apply removeHandler_absent, removeHandler_gone. Qed.

Lemma callbacks_spec h effs : forall a,
  Agent.callbacks h effs a
  = if decide (count_onDispose effs = 0%nat) then a else Agent.removeHandler h a.
Proof.
  induction effs as [|e effs IH]; intros a; [reflexivity|].
  destruct e; simpl; try apply IH.
  rewrite IH. unfold count_onDispose; simpl.
  destruct (decide (S (length (List.filter is_onDispose effs)) = 0%nat)); [lia|].
  destruct (decide (length (List.filter is_onDispose effs) = 0%nat));
    [reflexivity | apply removeHandler_twice].
Qed.

Lemma deliver_registry h i a : registry_ok a -> registry_ok (fst (Agent.deliver h i a)).
Proof.
  intros [Hnd Hiff]. unfold Agent.deliver.
  destruct (Agent.heap a !! h) as [ch|] eqn:Hh; [|split; assumption].
  pose proof (step_count ch i) as Hcount.
  destruct (step ch i) as [c' eff]; simpl in *.
  rewrite callbacks_spec. unfold done_count in Hcount.
  assert (h < length (Agent.heap a))%nat as Hlt by (eapply lookup_lt_Some; eauto).
  destruct (decide (count_onDispose eff = 0%nat)) as [Hz|Hnz].
  - assert (is_done (self c') = is_done (self ch)) as Hsame
      by (destruct (is_done (self c')), (is_done (self ch)); lia).
    split; [exact Hnd|]. intros x. simpl. rewrite Hiff.
    destruct (decide (x = h)) as [->|Hne].
    + rewrite list_lookup_insert_eq by exact Hlt. rewrite Hh. split.
      * intros (c & [= <-] & Hd). exists c'. split; congruence.
      * intros (c & [= <-] & Hd). exists ch. split; congruence.
    + now rewrite list_lookup_insert_ne by congruence.
  - assert (is_done (self c') = true) as Hd'
      by (destruct (is_done (self c')), (is_done (self ch)); auto; lia).
    split; simpl.
    + now apply list.NoDup_filter.
    + intros x. rewrite list_elem_of_filter, Hiff.
      destruct (decide (x = h)) as [->|Hne].
      * rewrite list_lookup_insert_eq by exact Hlt. split.
        -- intros [Hx _]. now destruct Hx.
        -- intros (c & [= <-] & Hd). congruence.
      * rewrite list_lookup_insert_ne by congruence. tauto.
Qed.

Lemma deliver_heap_length h i a :
  length (Agent.heap (fst (Agent.deliver h i a))) = length (Agent.heap a).
Proof.
  unfold Agent.deliver. destruct (Agent.heap a !! h) as [ch|]; [|reflexivity].
  destruct (step ch i) as [c' eff]; simpl.
  rewrite callbacks_heap. simpl. apply length_insert.
Qed.

Lemma forEach_dispose_registry array : forall a,
  registry_ok a ->
  registry_ok (fst (Agent.forEach_dispose array a))
  /\ length (Agent.heap (fst (Agent.forEach_dispose array a))) = length (Agent.heap a).
Proof.
  induction array as [|x array IH]; intros a Hok; simpl; [auto|].
  pose proof (deliver_registry x call_dispose a Hok) as H1.
  pose proof (deliver_heap_length x call_dispose a) as Hl1.
  destruct (Agent.deliver x call_dispose a) as [a1 e1]; simpl in *.
  destruct (IH a1 H1) as [H2 Hl2].
  destruct (Agent.forEach_dispose array a1) as [a2 e2]; simpl in *.
  split; [exact H2 | congruence].
Qed.

Lemma broadcast_stop_registry m hs : forall a,
  registry_ok a -> registry_ok (fst (Agent.broadcast_stop hs m a)).
Proof.
  induction hs as [|x hs IH]; intros a Hok; simpl; [exact Hok|].
  assert (registry_ok
            (fst (match Agent.heap a !! x with
                  | Some cx =>
                      if listening (self cx) then Agent.deliver x (stop_event m) a else (a, [])
                  | None => (a, [])
                  end))) as H1.
  { destruct (Agent.heap a !! x) as [cx|]; [destruct (listening (self cx))|]; simpl;
      try exact Hok. now apply deliver_registry. }
  destruct (match Agent.heap a !! x with
            | Some cx =>
                if listening (self cx) then Agent.deliver x (stop_event m) a else (a, [])
            | None => (a, [])
            end) as [a1 e1]; simpl in *.
  specialize (IH a1 H1).
  destruct (Agent.broadcast_stop hs m a1) as [a2 e2]; simpl in *. exact IH.
Qed.

Lemma registry_fields a a' :
  Agent.heap a' = Agent.heap a -> Agent.handlers a' = Agent.handlers a ->
  registry_ok a -> registry_ok a'.
Proof. unfold registry_ok. intros -> ->. auto. Qed.

(** Pushing a freshly built handler keeps the registry exact. *)
Lemma push_registry a c0 :
  is_done (self c0) = false -> registry_ok a ->
  registry_ok (Agent.set_handlers (Agent.handlers a ++ [length (Agent.heap a)])
                 (Agent.set_heap (Agent.heap a ++ [c0]) a)).
Proof.
  intros Hd0 [Hnd Hiff]. split; simpl.
  - apply list.NoDup_app. split; [exact Hnd|]. split; [|apply NoDup_singleton].
    intros x Hx Hx'. apply list_elem_of_singleton in Hx'. subst x.
    apply Hiff in Hx as (c & Hl & _). apply lookup_lt_Some in Hl. lia.
  - intros x. rewrite elem_of_app, list_elem_of_singleton, Hiff. split.
    + intros [(c & Hl & Hd) | ->].
      * exists c. split; [|exact Hd]. apply lookup_app_Some. now left.
      * exists c0. split; [|exact Hd0]. apply lookup_app_Some. right. split; [lia|].
        now rewrite Nat.sub_diag.
    + intros (c & Hl & Hd). apply lookup_app_Some in Hl as [Hl | [Hge Hl]].
      * left. eauto.
      * right. destruct (x - length (Agent.heap a))%nat eqn:E; [lia | discriminate].
Qed.

Lemma handleMessage_spawn_registry k ok a :
  registry_ok a -> registry_ok (fst (Agent.handleMessage_spawn k ok a)).
Proof.
  intros Hok. unfold Agent.handleMessage_spawn.
  destruct (Agent.tasks a !! k) as [[fp|fp cm]|]; simpl; try exact Hok.
  destruct ok; simpl.
  - match goal with
    | |- registry_ok (fst (let '(a3, eff1) := Agent.deliver ?x ?i ?a2 in _)) =>
        assert (registry_ok (fst (Agent.deliver x i a2))) as H;
        [|destruct (Agent.deliver x i a2); exact H]
    end.
    apply deliver_registry.
    apply (push_registry (Agent.set_tasks (delete k (Agent.tasks a)) a)); [reflexivity|].
    eapply registry_fields; [| |exact Hok]; reflexivity.
  - eapply registry_fields; [| |exact Hok]; reflexivity.
Qed.

Lemma step_registry a i : registry_ok a -> registry_ok (fst (Agent.step a i)).
Proof.
  intros Hok. destruct i as [e now d | k r | k ok | e | x s | x ok | | ok]; simpl.
  - destruct (handleMessage_fields e now d a) as [H1 H2].
    eapply registry_fields; eauto.
  - destruct (handleMessage_sent_fields k r a) as [H1 H2].
    eapply registry_fields; eauto.
  - now apply handleMessage_spawn_registry.
  - now apply broadcast_stop_registry.
  - now apply deliver_registry.
  - now apply deliver_registry.
  - eapply registry_fields; [| |exact Hok]; reflexivity.
  - destruct (Agent.disposing a) as [|n]; [exact Hok|].
    destruct ok; simpl; [|eapply registry_fields; [| |exact Hok]; reflexivity].
    assert (registry_ok (Agent.set_disposing n a)) as Hok'
      by (eapply registry_fields; [| |exact Hok]; reflexivity).
    destruct (forEach_dispose_registry (Agent.handlers a) (Agent.set_disposing n a) Hok')
      as [_ Hlen].
    pose proof (forEach_dispose_heap (Agent.handlers a) (Agent.set_disposing n a)) as Hheap.
    destruct (Agent.forEach_dispose (Agent.handlers a) (Agent.set_disposing n a)) as [a1 e1].
    simpl in *. split; simpl; [constructor|].
    intros h. split; [intros Hin; inversion Hin|].
    intros (c1 & Hl1 & Hd1). exfalso.
    assert (h < length (Agent.heap a))%nat as Hlt
      by (rewrite <- Hlen; eapply lookup_lt_Some; eauto).
    destruct (lookup_lt_is_Some_2 _ _ Hlt) as [c0 Hl0].
    destruct (Hheap h c0 Hl0) as (c' & Hl' & Hst & Hin).
    rewrite Hl1 in Hl'. injection Hl' as <-.
    destruct (is_done (self c0)) eqn:Hd0; [specialize (Hst eq_refl); congruence|].
    assert (h ∈ Agent.handlers a) as Hreg by (apply Hok; eauto).
    specialize (Hin Hreg). congruence.
Qed.

(** X12.  The registry is exact: along every run of the agent from a state
    where [handlers] holds, without repetition, exactly the handler objects
    that are not done, it still does.  A handler is in the registry as long
    as it is live and leaves it at the step that disposes it. *)
Theorem registry_exact (a : Agent.agent) (ins : list Agent.input) :
  registry_ok a -> registry_ok (fst (Agent.exec a ins)).
Proof.
  revert a. induction ins as [|i ins IH]; intros a Hok; [exact Hok|]. simpl.
  pose proof (step_registry a i Hok) as H1.
  destruct (Agent.step a i) as [a1 e1]; simpl in *.
  specialize (IH a1 H1). now destruct (Agent.exec a1 ins).
Qed.

Lemma registry_ok_sample_agent : registry_ok sample_agent.
Proof.
  split; [constructor|]. intros h. split.
  - intros Hin. inversion Hin.
  - intros (c & Hl & _). discriminate.
Qed.

Lemma registry_exact_scenario_D :
  registry_ok sample_agent /\ registry_ok (fst (Agent.exec sample_agent scenario_D)).
Proof.
  split; [exact registry_ok_sample_agent|].
  exact (registry_exact sample_agent scenario_D registry_ok_sample_agent).
Defined.

Lemma callbacks_fields h effs a :
  Agent.lastInteractionTs (Agent.callbacks h effs a) = Agent.lastInteractionTs a
  /\ Agent.tasks (Agent.callbacks h effs a) = Agent.tasks a
  /\ Agent.genAI (Agent.callbacks h effs a) = Agent.genAI a
  /\ Agent.model (Agent.callbacks h effs a) = Agent.model a
  /\ Agent.disposing (Agent.callbacks h effs a) = Agent.disposing a.
Proof. rewrite callbacks_spec. destruct (decide _); simpl; auto. Qed.

Lemma deliver_fields h i a :
  Agent.lastInteractionTs (fst (Agent.deliver h i a)) = Agent.lastInteractionTs a
  /\ Agent.tasks (fst (Agent.deliver h i a)) = Agent.tasks a
  /\ Agent.genAI (fst (Agent.deliver h i a)) = Agent.genAI a
  /\ Agent.model (fst (Agent.deliver h i a)) = Agent.model a
  /\ Agent.disposing (fst (Agent.deliver h i a)) = Agent.disposing a.
Proof.
  unfold Agent.deliver. destruct (Agent.heap a !! h) as [ch|]; [|simpl; auto].
  destruct (step ch i) as [c' eff]; simpl.
  pose proof (callbacks_fields h eff (Agent.set_heap (<[h:=c']> (Agent.heap a)) a)) as H.
  simpl in H. exact H.
Qed.

(** X13.  Handlers are independent: a stimulus for the handler object [h]
    (a settled promise of its [run] or of its stop callback, a call of its
    [dispose]) leaves every other handler object as it is, changes the
    registry at most by removing [h], issues only calls of [h], and touches
    no other field of the agent. *)
Theorem handlers_isolated (a : Agent.agent) (h : nat) (i : input) :
  (forall h', h' <> h ->
     Agent.heap (fst (Agent.deliver h i a)) !! h' = Agent.heap a !! h'
     /\ (h' ∈ Agent.handlers (fst (Agent.deliver h i a)) <-> h' ∈ Agent.handlers a))
  /\ Forall (fun e => exists x, e = Agent.of_handler h x) (snd (Agent.deliver h i a))
  /\ Agent.tasks (fst (Agent.deliver h i a)) = Agent.tasks a
  /\ Agent.lastInteractionTs (fst (Agent.deliver h i a)) = Agent.lastInteractionTs a.
Proof.
  split; [|split].
  - intros h' Hne. unfold Agent.deliver.
    destruct (Agent.heap a !! h) as [ch|]; [|simpl; tauto].
    destruct (step ch i) as [c' eff]; simpl.
    rewrite callbacks_heap. simpl. split.
    + now rewrite list_lookup_insert_ne by congruence.
    + rewrite callbacks_spec. destruct (decide _); simpl; [tauto|].
      rewrite list_elem_of_filter. tauto.
  - unfold Agent.deliver. destruct (Agent.heap a !! h) as [ch|]; [|constructor].
    destruct (step ch i) as [c' eff]; simpl.
    apply Forall_fmap, Forall_forall. intros e _. simpl. eauto.
  - destruct (deliver_fields h i a) as (H1 & H2 & _). auto.
Qed.

Lemma forEach_dispose_fields array : forall a,
  Agent.lastInteractionTs (fst (Agent.forEach_dispose array a)) = Agent.lastInteractionTs a.
Proof.
  induction array as [|x array IH]; intros a; simpl; [reflexivity|].
  destruct (deliver_fields x call_dispose a) as (H1 & _).
  destruct (Agent.deliver x call_dispose a) as [a1 e1]; simpl in *.
  specialize (IH a1). destruct (Agent.forEach_dispose array a1); simpl in *. congruence.
Qed.

Lemma broadcast_stop_fields m hs : forall a,
  Agent.lastInteractionTs (fst (Agent.broadcast_stop hs m a)) = Agent.lastInteractionTs a.
Proof.
  induction hs as [|x hs IH]; intros a; simpl; [reflexivity|].
  assert (Agent.lastInteractionTs
            (fst (match Agent.heap a !! x with
                  | Some cx =>
                      if listening (self cx) then Agent.deliver x (stop_event m) a else (a, [])
                  | None => (a, [])
                  end)) = Agent.lastInteractionTs a) as H1.
  { destruct (Agent.heap a !! x) as [cx|]; [destruct (listening (self cx))|]; simpl;
      try reflexivity. apply deliver_fields. }
  destruct (match Agent.heap a !! x with
            | Some cx =>
                if listening (self cx) then Agent.deliver x (stop_event m) a else (a, [])
            | None => (a, [])
            end) as [a1 e1]; simpl in *.
  specialize (IH a1). destruct (Agent.broadcast_stop hs m a1); simpl in *. congruence.
Qed.

(** X14.  [getLastInteraction] changes only when [handleMessage] accepts a
    message (model configured, message present, not AI-generated, non-empty
    text), and then becomes the clock reading of that call; ignored
    messages, replies of the transport, handler activity, stop signals and
    [dispose] leave it as it is. *)
Theorem last_interaction_only_on_accept (a : Agent.agent) (i : Agent.input) :
  Agent.getLastInteraction (fst (Agent.step a i))
  = match i with
    | Agent.message_new e now _ =>
        if accepts a e then now else Agent.getLastInteraction a
    | _ => Agent.getLastInteraction a
    end.
Proof.
  unfold Agent.getLastInteraction.
  destruct i as [e now d | k r | k ok | e | x s | x ok | | ok]; simpl.
  - unfold Agent.handleMessage, accepts.
    destruct (Agent.genAI a), (Agent.model a); simpl; try reflexivity.
    destruct (ev_message e) as [m|]; simpl; try reflexivity.
    destruct (ai_generated m); simpl; try reflexivity.
    destruct (text m) as [t|]; simpl; try reflexivity.
    destruct (truthy t); reflexivity.
  - unfold Agent.handleMessage_sent.
    destruct (Agent.tasks a !! k) as [[fp|fp cm]|]; simpl; try reflexivity.
    destruct r; reflexivity.
  - unfold Agent.handleMessage_spawn.
    destruct (Agent.tasks a !! k) as [[fp|fp cm]|]; simpl; try reflexivity.
    destruct ok; simpl; [|reflexivity].
    match goal with
    | |- Agent.lastInteractionTs (fst (let '(a3, eff1) := Agent.deliver ?x ?i ?a2 in _)) = _ =>
        destruct (deliver_fields x i a2) as (H & _);
        destruct (Agent.deliver x i a2); exact H
    end.
  - apply broadcast_stop_fields.
  - apply deliver_fields.
  - apply deliver_fields.
  - reflexivity.
  - destruct (Agent.disposing a) as [|n]; [reflexivity|].
    destruct ok; simpl; [|reflexivity].
    pose proof (forEach_dispose_fields (Agent.handlers a) (Agent.set_disposing n a)) as H.
    destruct (Agent.forEach_dispose (Agent.handlers a) (Agent.set_disposing n a)); exact H.
Qed.

Lemma snoc_insert {A} (l : list A) (x y : A) : <[length l := y]> (l ++ [x]) = l ++ [y].
Proof.
  replace (length l) with (length l + 0)%nat by lia. now rewrite insert_app_r.
Qed.

Lemma snoc_delete {A} (l : list A) (x : A) : delete (length l) (l ++ [x]) = l.
Proof. now rewrite delete_middle, app_nil_r. Qed.

Lemma snoc_lookup {A} (l : list A) (x : A) : (l ++ [x]) !! length l = Some x.
Proof. now apply list_lookup_middle. Qed.

Lemma accepts_inv a e :
  accepts a e = true ->
  exists g md m t, Agent.genAI a = Some g /\ Agent.model a = Some md
    /\ ev_message e = Some m /\ ai_generated m = false
    /\ text m = Some t /\ truthy t = true.
Proof.
  unfold accepts.
  destruct (Agent.genAI a) as [g|], (Agent.model a) as [md|]; try discriminate.
  destruct (ev_message e) as [m|]; try discriminate.
  destruct (ai_generated m) eqn:Hai; try discriminate.
  destruct (text m) as [t|] eqn:Ht; try discriminate. simpl.
  intros Htr. exists g, md, m, t. repeat split; auto.
Qed.

(** The first stage of an accepted message. *)
Lemma handleMessage_accepted a e m now d :
  accepts a e = true -> ev_message e = Some m ->
  Agent.handleMessage e now d a
  = (Agent.set_tasks (Agent.tasks a ++ [Agent.AwaitSendMessage (fullPrompt_of m d)])
       (Agent.set_lastInteractionTs now a),
     [Agent.sendMessage "" true]).
Proof.
  intros Hacc Hm.
  destruct (accepts_inv a e Hacc) as (g & md & m' & t & Hg & Hmd & Hm' & Hai & Ht & Htr).
  rewrite Hm in Hm'. injection Hm' as <-.
  unfold Agent.handleMessage, fullPrompt_of. now rewrite Hg, Hmd, Hm, Hai, Ht, Htr.
Qed.

(** X15.  An accepted message whose placeholder and "thinking" event both
    succeed yields exactly one new handler: the agent sends an empty
    placeholder flagged as AI-generated, then the "thinking" event for it,
    then builds a handler bound to the placeholder, gives it the assembled
    prompt, appends it to the registry and starts it (listener registered,
    "generating" event sent).  The existing handlers, registry entries and
    suspended calls are untouched. *)
Theorem accepted_message_spawns_handler
    (a : Agent.agent) (e : Event) (m : Message) (now : Z) (d : string) (cm : MessageResponse) :
  accepts a e = true -> ev_message e = Some m ->
  Agent.exec a
    [Agent.message_new e now d;
     Agent.settle_sendMessage (length (Agent.tasks a)) (Some cm);
     Agent.settle_thinking (length (Agent.tasks a)) true]
  = (Agent.mkAgent (Agent.genAI a) (Agent.model a) now
       (Agent.handlers a ++ [length (Agent.heap a)])
       (Agent.heap a
        ++ [mkConfig (mkHandler (fullPrompt_of m d) 0 false (Some false) cm true)
              AwaitGeneratingEvent 0])
       (Agent.tasks a) (Agent.disposing a),
     [Agent.sendMessage "" true;
      Agent.sendEvent (ai_indicator_update AI_STATE_THINKING (cid cm) (id cm));
      Agent.of_handler (length (Agent.heap a)) on_stop;
      Agent.of_handler (length (Agent.heap a))
        (sendEvent (ai_indicator_update AI_STATE_GENERATING (cid cm) (id cm)))]).
Proof.
  intros Hacc Hm. cbn [Agent.exec Agent.step].
  rewrite (handleMessage_accepted a e m now d Hacc Hm).
  destruct a as [g md ts hs hp tk dn]. simpl.
  unfold Agent.handleMessage_sent. simpl. rewrite snoc_lookup.
  unfold Agent.handleMessage_spawn. simpl.
  rewrite snoc_insert, snoc_lookup, snoc_delete.
  unfold Agent.deliver. simpl. rewrite snoc_lookup. simpl.
  rewrite snoc_insert. reflexivity.
Qed.

Lemma accepted_message_spawns_handler_sample :
  accepts sample_agent (sample_user_event "Summarize X") = true
  /\ Agent.handlers
       (fst (Agent.exec sample_agent
               [Agent.message_new (sample_user_event "Summarize X") 1700000000100
                  "November 14, 2023";
                Agent.settle_sendMessage 0 (Some sample_message);
                Agent.settle_thinking 0 true])) = [0%nat].
Proof.
  split; [reflexivity|].
  change 0%nat with (length (Agent.tasks sample_agent)) at 1 2.
  rewrite (accepted_message_spawns_handler sample_agent (sample_user_event "Summarize X")
             (mkMessage (Some "Summarize X") false None) 1700000000100 "November 14, 2023"
             sample_message eq_refl eq_refl).
  reflexivity.
Defined.

(** X16.  When the placeholder cannot be created, or the "thinking" event
    for it fails, [handleMessage] ends there: no handler is built, the
    registry and the handler objects are unchanged and the suspended call is
    gone.  Only the interaction timestamp keeps the new reading. *)
Theorem failed_placeholder_spawns_nothing
    (a : Agent.agent) (e : Event) (m : Message) (now : Z) (d : string) (cm : MessageResponse) :
  accepts a e = true -> ev_message e = Some m ->
  Agent.exec a
    [Agent.message_new e now d; Agent.settle_sendMessage (length (Agent.tasks a)) None]
  = (Agent.set_lastInteractionTs now a, [Agent.sendMessage "" true])
  /\ Agent.exec a
       [Agent.message_new e now d;
        Agent.settle_sendMessage (length (Agent.tasks a)) (Some cm);
        Agent.settle_thinking (length (Agent.tasks a)) false]
     = (Agent.set_lastInteractionTs now a,
        [Agent.sendMessage "" true;
         Agent.sendEvent (ai_indicator_update AI_STATE_THINKING (cid cm) (id cm))]).
Proof.
  intros Hacc Hm. cbn [Agent.exec Agent.step].
  rewrite (handleMessage_accepted a e m now d Hacc Hm).
  destruct a as [g md ts hs hp tk dn]. simpl.
  unfold Agent.handleMessage_sent. simpl. rewrite snoc_lookup. split.
  - simpl. unfold Agent.set_tasks, Agent.set_lastInteractionTs. simpl.
    now rewrite snoc_delete.
  - unfold Agent.handleMessage_spawn. simpl.
    rewrite snoc_insert, snoc_lookup. simpl.
    unfold Agent.set_tasks, Agent.set_lastInteractionTs. simpl.
    now rewrite snoc_delete.
Qed.

Lemma failed_placeholder_spawns_nothing_sample :
  accepts sample_agent (sample_user_event "Summarize X") = true
  /\ Agent.heap
       (fst (Agent.exec sample_agent
               [Agent.message_new (sample_user_event "Summarize X") 1700000000100
                  "November 14, 2023";
                Agent.settle_sendMessage 0 None])) = [].
Proof.
  split; [reflexivity|].
  change 0%nat with (length (Agent.tasks sample_agent)).
  rewrite (proj1 (failed_placeholder_spawns_nothing sample_agent
                    (sample_user_event "Summarize X")
                    (mkMessage (Some "Summarize X") false None) 1700000000100
                    "November 14, 2023" sample_message eq_refl eq_refl)).
  reflexivity.
Defined.

(** X17.  [init] is the gate of the agent.  A freshly constructed agent
    ignores every inbound message, logging that the model is not
    initialised.  [init] fails, with the error "Gemini API key is required",
    exactly when the key is missing or empty.  When it succeeds it
    subscribes to "message.new", keeps the registry, the handler objects and
    the timestamp, and from then on a message is accepted exactly when it is
    present, not AI-generated and has a non-empty text. *)
Theorem init_gates_messages (apiKey : option string) (a : Agent.agent) (e : Event) :
  (forall now t d,
     Agent.handleMessage e t d (Agent.new now)
     = (Agent.new now, [Agent.console_log "Gemini not initialized"]))
  /\ (Agent.init apiKey a = inl "Gemini API key is required"
      <-> apiKey = None \/ apiKey = Some "")
  /\ (forall a' eff, Agent.init apiKey a = inr (a', eff) ->
        eff = [Agent.on_message_new]
        /\ Agent.handlers a' = Agent.handlers a /\ Agent.heap a' = Agent.heap a
        /\ Agent.tasks a' = Agent.tasks a
        /\ Agent.getLastInteraction a' = Agent.getLastInteraction a
        /\ accepts a' e
           = match ev_message e with
             | Some m =>
                 negb (ai_generated m)
                 && match text m with Some message => truthy message | None => false end
             | None => false
             end).
Proof.
  split; [reflexivity|]. unfold Agent.init. split.
  - destruct apiKey as [k|]; [|split; auto].
    destruct (truthy k) eqn:Hk.
    + split; [discriminate|]. intros [H|[= ->]]; discriminate.
    + apply truthy_false in Hk. subst k. split; auto.
  - intros a' eff H. destruct apiKey as [k|]; [|discriminate].
    destruct (truthy k); [|discriminate].
    injection H as <- <-. unfold accepts. simpl. repeat split; reflexivity.
Qed.

Lemma broadcast_stop_untouched m hs : forall a h c,
  h ∉ hs -> Agent.heap a !! h = Some c ->
  Agent.heap (fst (Agent.broadcast_stop hs m a)) !! h = Some c.
Proof.
  induction hs as [|x hs IH]; intros a h c Hn Hl; simpl; [exact Hl|].
  apply not_elem_of_cons in Hn as [Hne Hn].
  assert (Agent.heap
            (fst (match Agent.heap a !! x with
                  | Some cx =>
                      if listening (self cx) then Agent.deliver x (stop_event m) a else (a, [])
                  | None => (a, [])
                  end)) !! h = Some c) as H1.
  { destruct (Agent.heap a !! x) as [cx|]; [destruct (listening (self cx))|]; simpl;
      try exact Hl.
    apply (deliver_other x h (stop_event m) a c); [congruence | exact Hl]. }
  destruct (match Agent.heap a !! x with
            | Some cx =>
                if listening (self cx) then Agent.deliver x (stop_event m) a else (a, [])
            | None => (a, [])
            end) as [a1 e1]; simpl in *.
  specialize (IH a1 h c Hn H1).
  destruct (Agent.broadcast_stop hs m a1) as [a2 e2]; simpl in *. exact IH.
Qed.

(** A listening handler among the addressees receives the signal once. *)
Lemma broadcast_stop_reaches m hs : forall a h c,
  NoDup hs -> h ∈ hs -> Agent.heap a !! h = Some c -> listening (self c) = true ->
  Agent.heap (fst (Agent.broadcast_stop hs m a)) !! h = Some (fst (step c (stop_event m))).
Proof.
  induction hs as [|x hs IH]; intros a h c Hnd Hin Hl Hls; [inversion Hin|].
  apply list.NoDup_cons in Hnd as [Hx Hnd]. simpl.
  destruct (decide (x = h)) as [->|Hne].
  - rewrite Hl, Hls.
    assert (Agent.heap (fst (Agent.deliver h (stop_event m) a)) !! h
            = Some (fst (step c (stop_event m)))) as H1.
    { unfold Agent.deliver. rewrite Hl.
      destruct (step c (stop_event m)) as [c1 eff]; simpl.
      rewrite callbacks_heap. simpl.
      apply list_lookup_insert_eq. eapply lookup_lt_Some; eauto. }
    destruct (Agent.deliver h (stop_event m) a) as [a1 e1]; simpl in *.
    pose proof (broadcast_stop_untouched m hs a1 h _ Hx H1) as H2.
    destruct (Agent.broadcast_stop hs m a1) as [a2 e2]; simpl in *. exact H2.
  - apply elem_of_cons in Hin as [->|Hin]; [congruence|].
    assert (Agent.heap
              (fst (match Agent.heap a !! x with
                    | Some cx =>
                        if listening (self cx) then Agent.deliver x (stop_event m) a else (a, [])
                    | None => (a, [])
                    end)) !! h = Some c) as H1.
    { destruct (Agent.heap a !! x) as [cx|]; [destruct (listening (self cx))|]; simpl;
        try exact Hl.
      apply (deliver_other x h (stop_event m) a c); [exact Hne | exact Hl]. }
    destruct (match Agent.heap a !! x with
              | Some cx =>
                  if listening (self cx) then Agent.deliver x (stop_event m) a else (a, [])
              | None => (a, [])
              end) as [a1 e1]; simpl in *.
    specialize (IH a1 h c Hnd Hin H1 Hls).
    destruct (Agent.broadcast_stop hs m a1) as [a2 e2]; simpl in *. exact IH.
Qed.

(** X18.  A stop signal that names the message of a live, listening handler
    cancels it through the agent: once the callback's "clear" event is
    fulfilled, the handler object is done, its controller (if [run] created
    one) is aborted, its [run] is where it was, and the handler is no longer
    in the registry. *)
Theorem stop_signal_removes_handler (a : Agent.agent) (h : nat) (c : config) (e : Event) :
  Agent.heap a !! h = Some c ->
  is_done (self c) = false -> listening (self c) = true ->
  ev_message_id e = Some (id (message (self c))) ->
  (h ∉ Agent.handlers
         (fst (Agent.exec a [Agent.ai_indicator_stop e; Agent.settle_handler_stop h true])))
  /\ Agent.heap
       (fst (Agent.exec a [Agent.ai_indicator_stop e; Agent.settle_handler_stop h true])) !! h
     = Some (mkConfig
               (set_disposed
                  (match abortController (self c) with
                   | Some _ => set_abortController (Some true) (self c)
                   | None => self c
                   end))
               (pc c) (stop_pending c)).
Proof.
  intros Hl Hd Hls He. cbn [Agent.exec Agent.step]. rewrite He.
  assert (h < length (Agent.heap a))%nat as Hlt by (eapply lookup_lt_Some; eauto).
  pose proof (broadcast_stop_reaches (Some (id (message (self c))))
                (seq 0 (length (Agent.heap a))) a h c) as Hb.
  specialize (Hb (NoDup_seq _ _)).
  assert (h ∈ seq 0 (length (Agent.heap a))) as Hin by (apply elem_of_seq; lia).
  specialize (Hb Hin Hl Hls).
  assert (fst (step c (stop_event (Some (id (message (self c))))))
          = mkConfig (match abortController (self c) with
                      | Some _ => set_abortController (Some true) (self c)
                      | None => self c
                      end) (pc c) (S (stop_pending c))) as Hc1.
  { simpl. unfold handleStopGenerating. rewrite Hd. simpl.
    rewrite bool_decide_eq_true_2 by reflexivity. simpl.
    destruct (abortController (self c)); reflexivity. }
  rewrite Hc1 in Hb.
  destruct (Agent.broadcast_stop _ _ a) as [a1 e1]. cbn [fst snd] in *.
  unfold Agent.deliver. rewrite Hb. simpl.
  assert (is_done (match abortController (self c) with
                   | Some _ => set_abortController (Some true) (self c)
                   | None => self c
                   end) = false) as Hd1
    by (destruct (abortController (self c)); exact Hd).
  unfold dispose. rewrite Hd1. simpl. split.
  - apply removeHandler_gone.
  - apply list_lookup_insert_eq. eapply lookup_lt_Some; eauto.
Qed.

Lemma stop_signal_removes_handler_scenario_D :
  Agent.heap (fst (Agent.exec sample_agent scenario_D)) !! 1%nat
  = Some (mkConfig
            (mkHandler (fullPrompt_of (mkMessage (Some "Summarize Z") false None)
                          "November 14, 2023")
               0 false (Some false) (mkMessageResponse "messaging:general" "m2") true)
            AwaitGeneratingEvent 0)
  /\ (1%nat ∉ Agent.handlers
                (fst (Agent.exec (fst (Agent.exec sample_agent scenario_D))
                        [Agent.ai_indicator_stop (mkEvent None (Some "m2"));
                         Agent.settle_handler_stop 1 true]))).
Proof.
  split; [reflexivity|].
  apply (proj1 (stop_signal_removes_handler (fst (Agent.exec sample_agent scenario_D)) 1 _
                  (mkEvent None (Some "m2")) eq_refl eq_refl eq_refl eq_refl)).
Defined.
